(** * Glen AI Agent: the bulk email dispatcher of [tools/email_sender.ts]

    A shallow embedding of [EmailSender] (validateEmail, stripHtml,
    sendEmail, sendCampaign) and the properties of its specification.

    Modelling conventions.
    - A JavaScript string is the list of its UTF-16 code units; regular
      expressions without the [u] flag work on code units.
    - The two regular-expression literals of the class are kept as data and
      run by a small backtracking matcher ([RegExp.match_at]), with
      [RegExp.test] and [RegExp.replace_all] standing for
      [RegExp.prototype.test] and [String.prototype.replace] with a [/g]
      pattern.
    - Effects (transport calls, the inter-batch timer) are recorded in a
      trace; an [async] function is a function from the trace to a settled
      promise and the new trace.  The transport is an arbitrary function of
      the trace so far and the request: it may resolve with data, resolve
      with an error, or reject.
    - A promise is represented by its settled value: the answer of the
      transport is fixed when the call is made, and completion times are
      not modelled.  [batch.map] starts the sends in list order and
      [Promise.all] keeps that order.
    - The sender has been initialised ([initialize] has run), so
      [this.resend] is the transport.
    - [logger] calls only write to the log and are left out. *)

From Stdlib Require Import String Ascii.
From Stdlib Require Import List Arith Lia Bool NArith.
From Equations Require Import Equations.
Import ListNotations.

(* ===================================================================== *)
(** ** JavaScript strings *)
(* ===================================================================== *)

Module JsString.

Definition code_unit := N.
Definition jsstring := list code_unit.

(** A string literal of the source (ASCII only). *)
Definition lit (s : string) : jsstring :=
  List.map N_of_ascii (list_ascii_of_string s).

(** ECMAScript [\s]: WhiteSpace and LineTerminator code points. *)
Definition is_space (c : code_unit) : bool :=
  ((9 <=? c) && (c <=? 13)                 (* TAB LF VT FF CR *)
   || (c =? 32) || (c =? 160)              (* SP, NBSP *)
   || (c =? 5760)                          (* U+1680 *)
   || ((8192 <=? c) && (c <=? 8202))       (* U+2000 .. U+200A *)
   || (c =? 8232) || (c =? 8233)           (* LS, PS *)
   || (c =? 8239) || (c =? 8287)           (* U+202F, U+205F *)
   || (c =? 12288) || (c =? 65279))%N.     (* U+3000, U+FEFF *)

Definition ch_at : code_unit := 64%N.   (* '@' *)
Definition ch_dot : code_unit := 46%N.  (* '.' *)
Definition ch_lt : code_unit := 60%N.   (* '<' *)
Definition ch_gt : code_unit := 62%N.   (* '>' *)

(** JavaScript truthiness of an optional string: [undefined] and the empty
    string are falsy.  [js_or a b] is [a || b]. *)
Definition js_or (a : option jsstring) (b : jsstring) : jsstring :=
  match a with
  | Some (c :: s) => c :: s
  | Some [] => b
  | None => b
  end.

End JsString.
Import JsString.

(* ===================================================================== *)
(** ** Regular expressions of the source *)
(* ===================================================================== *)

Module RegExp.

(** Quantifier of a character class: none, [+] or [*] (all greedy). *)
Inductive quant := Once | OneOrMore | ZeroOrMore.

(** A pattern is a sequence of quantified character classes, possibly
    with the end assertion [$]. *)
Inductive term :=
| Class (c : code_unit -> bool) (q : quant)
| AssertEnd.

Record regexp := {
  anchored : bool;        (* the pattern starts with [^] *)
  terms : list term
}.

(** [match_at p s]: the backtracking matcher run at the start of [s];
    the number of code units consumed by the first match it finds. *)
Fixpoint match_at (p : list term) : jsstring -> option nat :=
  match p with
  | [] => fun _ => Some 0
  | AssertEnd :: p' =>
      fun s => match s with
               | [] => match_at p' []
               | _ :: _ => None
               end
  | Class c q :: p' =>
      let fix greedy (s : jsstring) : option nat :=
        match s with
        | x :: s' =>
            if c x then
              match greedy s' with
              | Some n => Some (S n)
              | None => match_at p' s
              end
            else match_at p' s
        | [] => match_at p' []
        end in
      match q with
      | ZeroOrMore => greedy
      | OneOrMore =>
          fun s => match s with
                   | x :: s' => if c x then option_map S (greedy s') else None
                   | [] => None
                   end
      | Once =>
          fun s => match s with
                   | x :: s' => if c x then option_map S (match_at p' s') else None
                   | [] => None
                   end
      end
  end.

(** The greedy loop of [match_at], named for the proofs. *)
Fixpoint greedy (c : code_unit -> bool) (p' : list term) (s : jsstring)
  : option nat :=
  match s with
  | x :: s' =>
      if c x then
        match greedy c p' s' with
        | Some n => Some (S n)
        | None => match_at p' s
        end
      else match_at p' s
  | [] => match_at p' []
  end.

(** Scan for a match at any start position. *)
Fixpoint search (p : list term) (s : jsstring) : bool :=
  match match_at p s with
  | Some _ => true
  | None => match s with
            | [] => false
            | _ :: s' => search p s'
            end
  end.

(** [RegExp.prototype.test] for a pattern without [g] or [y] flag. *)
Definition test (r : regexp) (s : jsstring) : bool :=
  if anchored r
  then match match_at (terms r) s with Some _ => true | None => false end
  else search (terms r) s.

(** One match attempt of the global replace at the current position. *)
Definition attempt (r : regexp) (at_start : bool) (s : jsstring) : option nat :=
  if anchored r && negb at_start then None else match_at (terms r) s.

(** [String.prototype.replace] with a [/g] pattern and a literal
    replacement: scan left to right; [skip] counts the code units of the
    current match still to be dropped. *)
Fixpoint replace_from (r : regexp) (repl : jsstring) (at_start : bool)
         (skip : nat) (s : jsstring) : jsstring :=
  match s with
  | [] =>
      match skip with
      | O => match attempt r at_start [] with
             | Some _ => repl
             | None => []
             end
      | S _ => []
      end
  | x :: s' =>
      match skip with
      | S k => replace_from r repl false k s'
      | O =>
          match attempt r at_start s with
          | Some (S n) => repl ++ replace_from r repl false n s'
          | Some O => repl ++ x :: replace_from r repl false 0 s'
          | None => x :: replace_from r repl false 0 s'
          end
      end
  end.

Definition replace_all (r : regexp) (repl : jsstring) (s : jsstring) : jsstring :=
  replace_from r repl true 0 s.

(** *** What a pattern denotes *)

Definition all_in (c : code_unit -> bool) (u : jsstring) : Prop :=
  Forall (fun x => c x = true) u.

Inductive reps (c : code_unit -> bool) : quant -> jsstring -> Prop :=
| reps_once x : c x = true -> reps c Once [x]
| reps_plus x u : c x = true -> all_in c u -> reps c OneOrMore (x :: u)
| reps_star u : all_in c u -> reps c ZeroOrMore u.

(** [matches p m rest]: on the input [m ++ rest], [p] can match exactly [m]. *)
Inductive matches : list term -> jsstring -> jsstring -> Prop :=
| matches_nil rest : matches [] [] rest
| matches_end p : matches p [] [] -> matches (AssertEnd :: p) [] []
| matches_class c q p u m rest :
    reps c q u -> matches p m rest -> matches (Class c q :: p) (u ++ m) rest.

(** The matcher only reports matches that the pattern denotes. *)
Definition sound_at (p : list term) : Prop :=
  forall s n, match_at p s = Some n ->
    exists m rest, s = m ++ rest /\ length m = n /\ matches p m rest.

End RegExp.

(* ===================================================================== *)
(** ** The pure helpers of [EmailSender] *)
(* ===================================================================== *)

Module Pure.
Import RegExp.

(** [[^\s@]] *)
Definition not_space_at (c : code_unit) : bool :=
  negb (is_space c || (c =? ch_at)%N).

(** [[^>]] *)
Definition not_gt (c : code_unit) : bool := negb (c =? ch_gt)%N.

Definition is_char (k c : code_unit) : bool := (c =? k)%N.

(** [/^[^\s@]+@[^\s@]+\.[^\s@]+$/] *)
Definition emailRegex : regexp :=
  {| anchored := true;
     terms := [ Class not_space_at OneOrMore;
                Class (is_char ch_at) Once;
                Class not_space_at OneOrMore;
                Class (is_char ch_dot) Once;
                Class not_space_at OneOrMore;
                AssertEnd ] |}.

(** [validateEmail(email)]: [emailRegex.test(email)]. *)
Definition validateEmail (email : jsstring) : bool :=
  test emailRegex email.

(** [/<[^>]*>/g] *)
Definition tagRegex : regexp :=
  {| anchored := false;
     terms := [ Class (is_char ch_lt) Once;
                Class not_gt ZeroOrMore;
                Class (is_char ch_gt) Once ] |}.

(** [stripHtml(html)]: [html.replace(/<[^>]*>/g, '')]. *)
Definition stripHtml (html : jsstring) : jsstring :=
  replace_all tagRegex [] html.

Definition tag_terms : list term := terms tagRegex.

(** The scan of [stripHtml], from any position. *)
Definition strip_from (skip : nat) (s : jsstring) : jsstring :=
  replace_from tagRegex [] false skip s.

End Pure.
Import Pure.

(* ===================================================================== *)
(** ** Effects: traces, promises, the transport *)
(* ===================================================================== *)

Module Effects.

(** Argument of [resend.emails.send]. *)
Record SendRequest := {
  rq_from : jsstring;
  rq_to : list jsstring;
  rq_subject : jsstring;
  rq_html : jsstring;
  rq_text : jsstring
}.

(** Observable events, oldest first. *)
Inductive Event :=
| EvSend (rq : SendRequest)     (* a call of [resend.emails.send] *)
| EvDelay (ms : nat).           (* a [setTimeout] pause awaited by the caller *)

Definition Trace := list Event.

(** A thrown value: an [Error] with its message, or anything else. *)
Inductive Thrown :=
| ErrorObject (message : jsstring)
| OtherValue.

(** A settled promise. *)
Inductive Settled (A : Type) :=
| Fulfilled (a : A)
| Rejected (e : Thrown).
Arguments Fulfilled {A} a.
Arguments Rejected {A} e.

(** An [async] function body: runs on the trace, settles, extends the trace. *)
Definition Async (A : Type) := Trace -> Settled A * Trace.

Definition ret {A} (a : A) : Async A := fun w => (Fulfilled a, w).

Definition throw {A} (e : Thrown) : Async A := fun w => (Rejected e, w).

Definition bind {A B} (m : Async A) (k : A -> Async B) : Async B :=
  fun w => match m w with
           | (Fulfilled a, w') => k a w'
           | (Rejected e, w') => (Rejected e, w')
           end.

(** [try { m } catch (error) { h error }] *)
Definition try_catch {A} (m : Async A) (h : Thrown -> Async A) : Async A :=
  fun w => match m w with
           | (Fulfilled a, w') => (Fulfilled a, w')
           | (Rejected e, w') => h e w'
           end.

(** [await p] of an already created promise. *)
Definition await {A} (p : Settled A) : Async A := fun w => (p, w).

(** [l.map(x => f(x))] for an async [f]: every call is started, in list
    order, and the promises are collected. *)
Fixpoint map_async {A B} (f : A -> Async B) (l : list A) (w : Trace)
  : list (Settled B) * Trace :=
  match l with
  | [] => ([], w)
  | x :: l' =>
      let '(p, w1) := f x w in
      let '(ps, w2) := map_async f l' w1 in
      (p :: ps, w2)
  end.

(** [Promise.all]: the values in the order of the promises, or a rejection
    (the first one in list order: completion times are not modelled). *)
Fixpoint promise_all {A} (ps : list (Settled A)) : Settled (list A) :=
  match ps with
  | [] => Fulfilled []
  | Rejected e :: _ => Rejected e
  | Fulfilled a :: ps' =>
      match promise_all ps' with
      | Fulfilled l => Fulfilled (a :: l)
      | Rejected e => Rejected e
      end
  end.

(** [{ data, error }] as resolved by the transport. *)
Record EmailId := { id : jsstring }.
Record ErrorResponse := { message : jsstring }.
Record CreateEmailResponse := {
  reply_data : option EmailId;
  reply_error : option ErrorResponse
}.

(** The message transport: its answer may depend on everything that
    happened before (earlier sends, pauses). *)
Definition Transport := Trace -> SendRequest -> Settled CreateEmailResponse.

(** [Array.prototype.slice(start, stop)] for [start <= stop]. *)
Definition slice {A} (l : list A) (start stop : nat) : list A :=
  firstn (stop - start) (skipn start l).

End Effects.
Import Effects.

(* ===================================================================== *)
(** ** [EmailSender] *)
(* ===================================================================== *)

Module EmailSender.

Inductive Recipients :=
| Single (address : jsstring)
| Several (addresses : list jsstring).

Record EmailData := {
  to : Recipients;
  subject : jsstring;
  content : jsstring;
  from : option jsstring;
  html : option jsstring;
  text : option jsstring
}.

Record EmailResponse := {
  success : bool;
  messageId : option jsstring;
  error : option jsstring
}.

Definition defaultFrom : jsstring :=
  lit "Glen AI Agent <noreply@yourdomain.com>".

Definition batchSize : nat := 10.

(** The argument object built for [resend.emails.send]. *)
Definition request_of (emailData : EmailData) : SendRequest :=
  {| rq_from := js_or (from emailData) defaultFrom;
     rq_to := match to emailData with
              | Several l => l
              | Single a => [a]
              end;
     rq_subject := subject emailData;
     rq_html := js_or (html emailData) (content emailData);
     rq_text := js_or (text emailData) (stripHtml (content emailData)) |}.

(** The value returned after the transport has resolved. *)
Definition response_of (reply : CreateEmailResponse) : EmailResponse :=
  match reply_error reply with
  | Some e =>
      {| success := false; messageId := None; error := Some (message e) |}
  | None =>
      {| success := true;
         messageId := option_map id (reply_data reply);
         error := None |}
  end.

(** [error instanceof Error ? error.message : 'Unknown error'] *)
Definition describe (e : Thrown) : jsstring :=
  match e with
  | ErrorObject m => m
  | OtherValue => lit "Unknown error"
  end.

(** [{ to: recipient, subject, content, from }] *)
Definition campaign_email (subject content : jsstring) (from : option jsstring)
           (recipient : jsstring) : EmailData :=
  {| to := Single recipient; subject := subject; content := content;
     from := from; html := None; text := None |}.

Section WithTransport.

Variable resend : Transport.

(** [await this.resend.emails.send(rq)] *)
Definition emails_send (rq : SendRequest) : Async CreateEmailResponse :=
  fun w => (resend w rq, w ++ [EvSend rq]).

(** [this.delay(ms)], awaited. *)
Definition delay (ms : nat) : Async unit :=
  fun w => (Fulfilled tt, w ++ [EvDelay ms]).

Definition sendEmail (emailData : EmailData) : Async EmailResponse :=
  try_catch
    (bind (emails_send (request_of emailData)) (fun reply =>
       ret (response_of reply)))
    (fun e =>
       ret {| success := false; messageId := None;
              error := Some (describe e) |}).

(** One iteration of the [for] loop of [sendCampaign]: the new [results]. *)
Definition campaign_batch (recipients : list jsstring)
           (subject content : jsstring) (from : option jsstring)
           (i : nat) (results : list EmailResponse)
  : Async (list EmailResponse) :=
  fun w =>
    let batch := slice recipients i (i + batchSize) in
    let '(promises, w1) :=
      map_async (fun recipient =>
                   sendEmail (campaign_email subject content from recipient))
                batch w in
    bind (await (promise_all promises)) (fun batchResults =>
      let results' := results ++ batchResults in
      if i + batchSize <? length recipients
      then bind (delay 1000) (fun _ => ret results')
      else ret results') w1.

(** [for (let i = 0; i < recipients.length; i += batchSize) { ... }]
    followed by [return results]. *)
Equations? campaign_loop (recipients : list jsstring)
          (subject content : jsstring) (from : option jsstring)
          (i : nat) (results : list EmailResponse) (w : Trace)
  : Settled (list EmailResponse) * Trace
  by wf (length recipients - i) lt :=
  campaign_loop recipients subject content from i results w
    with lt_dec i (length recipients) := {
    | left _ with campaign_batch recipients subject content from i results w := {
      | (Fulfilled results', w') =>
          campaign_loop recipients subject content from (i + batchSize) results' w'
      | (Rejected e, w') => (Rejected e, w') }
    | right _ => (Fulfilled results, w) }.
Proof. unfold batchSize. lia. Qed.

Definition sendCampaign (recipients : list jsstring)
           (subject content : jsstring) (from : option jsstring)
  : Async (list EmailResponse) :=
  try_catch
    (campaign_loop recipients subject content from 0 [])
    (fun e => throw e).

End WithTransport.

End EmailSender.
Import EmailSender.

(* ===================================================================== *)
(** ** The specification's own notions *)
(* ===================================================================== *)

Module Spec.
Import RegExp.

(** The address grammar in the words of the specification: local part,
    ['@'], domain, each non-empty, no whitespace anywhere. *)
Definition two_part_address (s : jsstring) : Prop :=
  exists local domain,
    s = local ++ ch_at :: domain /\
    local <> [] /\ domain <> [] /\
    Forall (fun c => is_space c = false) s.

(** The grammar of [emailRegex]: local part, ['@'], label, ['.'], rest,
    the three parts non-empty and free of whitespace and ['@']. *)
Definition dotted_address (s : jsstring) : Prop :=
  exists local label rest,
    s = local ++ ch_at :: label ++ ch_dot :: rest /\
    local <> [] /\ label <> [] /\ rest <> [] /\
    all_in not_space_at local /\ all_in not_space_at label /\
    all_in not_space_at rest.

(** A markup tag occurs in [s]: a ['<'], later a ['>']. *)
Definition has_tag (s : jsstring) : Prop :=
  exists pre body post, s = pre ++ ch_lt :: body ++ ch_gt :: post.

(** [tags_removed s out]: [out] is [s] with every tag deleted, read from
    the left: a tag runs from a ['<'] to the next ['>']; text outside tags
    is kept as it is. *)
Inductive tags_removed : jsstring -> jsstring -> Prop :=
| tags_none s : ~ has_tag s -> tags_removed s s
| tags_one pre body rest out :
    ~ In ch_lt pre -> ~ In ch_gt body ->
    tags_removed rest out ->
    tags_removed (pre ++ ch_lt :: body ++ ch_gt :: rest) (pre ++ out).

(** The send events among the events of a trace. *)
Definition sends_of (w : Trace) : list SendRequest :=
  flat_map (fun e => match e with EvSend rq => [rq] | EvDelay _ => [] end) w.

(** The pauses among the events of a trace. *)
Definition delays_of (w : Trace) : list nat :=
  flat_map (fun e => match e with EvSend _ => [] | EvDelay ms => [ms] end) w.

(** Number of batches of a campaign to [n] recipients. *)
Definition batch_count (n : nat) : nat := (n + (batchSize - 1)) / batchSize.

(** A failure outcome with its reason. *)
Definition failure (reason : jsstring) : EmailResponse :=
  {| success := false; messageId := None; error := Some reason |}.

(** What [sendEmail] returns for an answer of the transport. *)
Definition outcome_of (answer : Settled CreateEmailResponse) : EmailResponse :=
  match answer with
  | Fulfilled reply => response_of reply
  | Rejected e => failure (describe e)
  end.

(** An outcome is a success without error text, or a failure with an error
    text and without message identifier. *)
Definition well_formed (o : EmailResponse) : Prop :=
  (success o = true /\ error o = None) \/
  (success o = false /\ messageId o = None /\ exists reason, error o = Some reason).

(** A call fails fast on the trace [w]: it rejects and nothing was sent or
    awaited. *)
Definition fails_fast {A} (run : Async A) (w : Trace) : Prop :=
  exists e, run w = (Rejected e, w).

(** The request of the campaign for one recipient. *)
Definition campaign_request (subject content : jsstring)
           (from : option jsstring) (recipient : jsstring) : SendRequest :=
  request_of (campaign_email subject content from recipient).

(** One send event per recipient, in order. *)
Definition send_events (req : jsstring -> SendRequest) (rs : list jsstring)
  : list Event :=
  map (fun r => EvSend (req r)) rs.

(** [attempts resend req w rs os w']: starting on the trace [w], every
    recipient of [rs], in order, is sent to once, the answer of the transport
    gives its outcome in [os], and only pauses lie between the sends. *)
Inductive attempts (resend : Transport) (req : jsstring -> SendRequest)
  : Trace -> list jsstring -> list EmailResponse -> Trace -> Prop :=
| attempts_nil w : attempts resend req w [] [] w
| attempts_cons w r rs os w' pauses :
    sends_of pauses = [] ->
    attempts resend req (w ++ EvSend (req r) :: pauses) rs os w' ->
    attempts resend req w (r :: rs)
             (outcome_of (resend w (req r)) :: os) w'.

(** The events of batch number [k]: one send per member, then the pause if
    recipients remain after the batch. *)
Definition batch_events (req : jsstring -> SendRequest)
           (recipients : list jsstring) (k : nat) : list Event :=
  send_events req
      (slice recipients (batchSize * k) (batchSize * k + batchSize))
  ++ match skipn (batchSize * k + batchSize) recipients with
     | [] => []
     | _ :: _ => [EvDelay 1000]
     end.

Definition campaign_events (req : jsstring -> SendRequest)
           (recipients : list jsstring) : list Event :=
  flat_map (batch_events req recipients)
           (seq 0 (batch_count (length recipients))).

End Spec.
Import Spec.

(* ===================================================================== *)
(** ** Sample transports and the scenario of the specification *)
(* ===================================================================== *)

Module Scenario.

(** A transport that accepts every message. *)
Definition always_ok : Transport :=
  fun _ _ => Fulfilled {| reply_data := Some {| id := lit "msg-1" |};
                          reply_error := None |}.

(** A transport whose every call is rejected with a network error. *)
Definition always_down : Transport :=
  fun _ _ => Rejected (ErrorObject (lit "network error")).

Definition scenario_recipients : list jsstring :=
  [lit "a@x.com"; lit "bad"; lit "c@x.com"].

(** The outcome of a send accepted by [always_ok]. *)
Definition accepted : EmailResponse :=
  {| success := true; messageId := Some (lit "msg-1"); error := None |}.

End Scenario.
Import Scenario.

(* ===================================================================== *)
(** ** Further notions for the dispatcher *)
(* ===================================================================== *)

Module Dispatch.

(** [subseq a b]: [a] is [b] with some code units deleted. *)
Inductive subseq : jsstring -> jsstring -> Prop :=
| subseq_nil : subseq [] []
| subseq_keep x a b : subseq a b -> subseq (x :: a) (x :: b)
| subseq_drop x a b : subseq a b -> subseq a (x :: b).

(** The outcomes read along a stretch of events that follows the trace
    [w]: every send has the outcome of the transport's answer at the
    moment it is issued. *)
Fixpoint outcomes_along (resend : Transport) (w : Trace) (evs : list Event)
  : list EmailResponse :=
  match evs with
  | [] => []
  | EvSend rq :: evs' =>
      outcome_of (resend w rq) :: outcomes_along resend (w ++ [EvSend rq]) evs'
  | EvDelay ms :: evs' => outcomes_along resend (w ++ [EvDelay ms]) evs'
  end.

End Dispatch.
Import Dispatch.

(* ===================================================================== *)
(** ** State and exceptions over any store *)
(* ===================================================================== *)

Module StateEff.

Section Store.

Variable W : Type.

(** An [async] method over the store [W]. *)
Definition Eff (A : Type) := W -> Settled A * W.

Definition eret {A} (a : A) : Eff A := fun w => (Fulfilled a, w).

Definition ethrow {A} (e : Thrown) : Eff A := fun w => (Rejected e, w).

Definition ebind {A B} (m : Eff A) (k : A -> Eff B) : Eff B :=
  fun w => match m w with
           | (Fulfilled a, w') => k a w'
           | (Rejected e, w') => (Rejected e, w')
           end.

(** [try { m } catch (error) { h error }] *)
Definition etry {A} (m : Eff A) (h : Thrown -> Eff A) : Eff A :=
  fun w => match m w with
           | (Fulfilled a, w') => (Fulfilled a, w')
           | (Rejected e, w') => h e w'
           end.

End Store.

Arguments eret {W A} a.
Arguments ethrow {W A} e.
Arguments ebind {W A B} m k.
Arguments etry {W A} m h.

End StateEff.
Import StateEff.

(* ===================================================================== *)
(** ** [EmailSender.sendTemplate] *)
(* ===================================================================== *)

Module Templates.

(** Argument of [resend.emails.send] for a template message. *)
Record TemplateRequest := {
  tq_from : jsstring;
  tq_to : list jsstring;
  tq_subject : jsstring;
  tq_react : jsstring
}.

(** The transport calls made so far, oldest first. *)
Definition TemplateTrace := list TemplateRequest.

Definition TemplateTransport :=
  TemplateTrace -> TemplateRequest -> Settled CreateEmailResponse.

Definition defaultSubject : jsstring := lit "Message from Glen AI Agent".

Section WithTemplateTransport.

(** The template data and [JSON.stringify] on it: the text, or the
    exception it throws. *)
Variable Data : Type.
Variable stringify : Data -> Settled jsstring.

Variable resend : TemplateTransport.

(** [`<div>Template ${templateId} with data: ${JSON.stringify(data)}</div>`] *)
Definition getTemplateComponent (templateId : jsstring) (data : Data)
  : Eff TemplateTrace jsstring :=
  fun w =>
    match stringify data with
    | Fulfilled json =>
        (Fulfilled (lit "<div>Template " ++ templateId
                    ++ lit " with data: " ++ json ++ lit "</div>"), w)
    | Rejected e => (Rejected e, w)
    end.

(** [await this.resend.emails.send(rq)] *)
Definition template_send (rq : TemplateRequest)
  : Eff TemplateTrace CreateEmailResponse :=
  fun w => (resend w rq, w ++ [rq]).

Definition sendTemplate (to : Recipients) (templateId : jsstring)
           (templateData : Data) (subject from : option jsstring)
  : Eff TemplateTrace EmailResponse :=
  etry
    (ebind (getTemplateComponent templateId templateData) (fun react =>
     ebind (template_send
              {| tq_from := js_or from defaultFrom;
                 tq_to := match to with
                          | Several l => l
                          | Single a => [a]
                          end;
                 tq_subject := js_or subject defaultSubject;
                 tq_react := react |}) (fun reply =>
     eret (response_of reply))))
    (fun e =>
       eret {| success := false; messageId := None;
               error := Some (describe e) |}).

End WithTemplateTransport.

Arguments getTemplateComponent {Data} stringify templateId data.
Arguments sendTemplate {Data} stringify resend to templateId templateData subject from.

End Templates.
Import Templates.

(* ===================================================================== *)
(** ** The lead document of [db/Leadmodel.ts] *)
(* ===================================================================== *)

Module Lead.

Inductive LeadStatus :=
| NEW | CONTACTED | QUALIFIED | CONVERTED | UNSUBSCRIBED | BOUNCED.

(** A [Date], as the clock reading in milliseconds. *)
Definition Date := nat.

(** A lead: its email and the fields that the methods below read or
    write. *)
Record LeadDoc := {
  email : jsstring;
  tags : list jsstring;
  status : LeadStatus;
  unsubscribedAt : option Date;
  bouncedAt : option Date
}.

(** [a === b] on strings. *)
Definition str_eqb (a b : jsstring) : bool :=
  if list_eq_dec N.eq_dec a b then true else false.

(** [l.includes(x)] *)
Definition includes (l : list jsstring) (x : jsstring) : bool :=
  existsb (str_eqb x) l.

(** A [Set] of strings is the list of its members in insertion order;
    [set_add s x] is [s.add(x)]. *)
Definition set_add (s : list jsstring) (x : jsstring) : list jsstring :=
  if includes s x then s else s ++ [x].

(** [[...new Set(xs)]] *)
Definition new_Set (xs : list jsstring) : list jsstring :=
  fold_left set_add xs [].

(** The schema validator of [tags]: [tags.every(tag => tag.length <= 50)]. *)
Definition tags_validator (tags : list jsstring) : bool :=
  forallb (fun tag => length tag <=? 50) tags.

(** The instance methods, as the change they make to the document before
    they hand it to [save]. *)
Definition addTags (newTags : list jsstring) (d : LeadDoc) : LeadDoc :=
  {| email := email d;
     tags := new_Set (tags d ++ newTags);
     status := status d; unsubscribedAt := unsubscribedAt d;
     bouncedAt := bouncedAt d |}.

Definition removeTags (oldTags : list jsstring) (d : LeadDoc) : LeadDoc :=
  {| email := email d;
     tags := filter (fun tag => negb (includes oldTags tag)) (tags d);
     status := status d; unsubscribedAt := unsubscribedAt d;
     bouncedAt := bouncedAt d |}.

Definition updateStatus (now : Date) (newStatus : LeadStatus) (d : LeadDoc)
  : LeadDoc :=
  {| email := email d;
     tags := tags d;
     status := newStatus;
     unsubscribedAt := match newStatus with
                       | UNSUBSCRIBED => Some now
                       | _ => unsubscribedAt d
                       end;
     bouncedAt := match newStatus with
                  | BOUNCED => Some now
                  | _ => bouncedAt d
                  end |}.

(** A series of [updateStatus] calls, each with the clock reading at the
    call, oldest first. *)
Definition updateStatuses (calls : list (Date * LeadStatus)) (d : LeadDoc)
  : LeadDoc :=
  fold_left (fun d c => updateStatus (fst c) (snd c) d) calls d.

End Lead.
Import Lead.

(* ===================================================================== *)
(** ** [DatabaseConnection] of [db/connection.ts] *)
(* ===================================================================== *)

Module Db.

(** The calls made on [mongoose]. *)
Inductive MongooseOp :=
| MConnect (uri : jsstring)     (* [mongoose.connect(uri, options)] *)
| MDisconnect                   (* [mongoose.disconnect()] *)
| MPing.                        (* [mongoose.connection.db.admin().ping()] *)

(** A finished call and whether it fulfilled. *)
Record MongooseCall := { call_op : MongooseOp; call_ok : bool }.

(** [mongoose]: the result of a call may depend on the calls before it. *)
Definition Mongoose := list MongooseCall -> MongooseOp -> Settled unit.

(** The instance, with what it has done to its surroundings: the number
    of times the event listeners were registered and the calls made. *)
Record DbState := {
  isConnected : bool;
  connectionString : jsstring;
  listeners : nat;
  calls : list MongooseCall
}.

(** [new DatabaseConnection()] with [process.env.MONGODB_URI]. *)
Definition new_instance (env_uri : option jsstring) : DbState :=
  {| isConnected := false; connectionString := js_or env_uri [];
     listeners := 0; calls := [] |}.

Definition set_isConnected (b : bool) : Eff DbState unit :=
  fun s => (Fulfilled tt,
            {| isConnected := b; connectionString := connectionString s;
               listeners := listeners s; calls := calls s |}).

Definition setupEventListeners : Eff DbState unit :=
  fun s => (Fulfilled tt,
            {| isConnected := isConnected s;
               connectionString := connectionString s;
               listeners := S (listeners s); calls := calls s |}).

Section WithMongoose.

Variable mongoose : Mongoose.

(** [await mongoose.<op>] *)
Definition mongoose_call (o : MongooseOp) : Eff DbState unit :=
  fun s =>
    let record ok :=
      {| isConnected := isConnected s; connectionString := connectionString s;
         listeners := listeners s;
         calls := calls s ++ [{| call_op := o; call_ok := ok |}] |} in
    match mongoose (calls s) o with
    | Fulfilled _ => (Fulfilled tt, record true)
    | Rejected e => (Rejected e, record false)
    end.

Definition connect : Eff DbState unit :=
  fun s =>
    if isConnected s then eret tt s
    else
      match connectionString s with
      | [] => ethrow (ErrorObject (lit "MONGODB_URI is required")) s
      | _ :: _ =>
          etry
            (ebind (mongoose_call (MConnect (connectionString s))) (fun _ =>
             ebind (set_isConnected true) (fun _ =>
             setupEventListeners)))
            (fun e => ebind (set_isConnected false) (fun _ => ethrow e)) s
      end.

Definition disconnect : Eff DbState unit :=
  fun s =>
    if negb (isConnected s) then eret tt s
    else
      etry (ebind (mongoose_call MDisconnect) (fun _ => set_isConnected false))
           (fun e => ethrow e) s.

Definition getConnectionStatus (s : DbState) : bool := isConnected s.

Definition healthCheck : Eff DbState bool :=
  etry
    (fun s =>
       if negb (isConnected s) then eret false s
       else ebind (mongoose_call MPing) (fun _ => eret true) s)
    (fun e => ebind (set_isConnected false) (fun _ => eret false)).

Definition reconnect : Eff DbState unit :=
  ebind disconnect (fun _ => connect).

(** The ['error'] and ['disconnected'] listeners: they run only once
    registered. *)
Definition connection_lost (s : DbState) : DbState :=
  match listeners s with
  | O => s
  | S _ => snd (set_isConnected false s)
  end.

(** What can happen to an instance. *)
Inductive Action :=
| DoConnect | DoDisconnect | DoHealthCheck | DoReconnect
| ConnectionLost.

Definition step (s : DbState) (a : Action) : DbState :=
  match a with
  | DoConnect => snd (connect s)
  | DoDisconnect => snd (disconnect s)
  | DoHealthCheck => snd (healthCheck s)
  | DoReconnect => snd (reconnect s)
  | ConnectionLost => connection_lost s
  end.

Definition run (actions : list Action) (s : DbState) : DbState :=
  fold_left step actions s.

End WithMongoose.

(** The successful [mongoose.connect] calls among the calls made. *)
Definition connects_ok (l : list MongooseCall) : nat :=
  length (filter (fun c => match call_op c with
                           | MConnect _ => call_ok c
                           | _ => false
                           end) l).

(** Every [disconnect] or [ping] in the call list comes after a
    successful [connect]. *)
Fixpoint connect_first (seen : bool) (l : list MongooseCall) : bool :=
  match l with
  | [] => true
  | c :: l' =>
      match call_op c with
      | MConnect _ => connect_first (seen || call_ok c) l'
      | _ => seen && connect_first seen l'
      end
  end.

(** What holds of an instance through everything that can happen to it. *)
Definition db_invariant (uri : jsstring) (s : DbState) : Prop :=
  connectionString s = uri /\
  listeners s = connects_ok (calls s) /\
  (isConnected s = true -> 1 <= connects_ok (calls s)) /\
  connect_first false (calls s) = true /\
  Forall (fun c => forall u, call_op c = MConnect u -> u = uri) (calls s).

End Db.
Import Db.

(* ===================================================================== *)
(** ** The matcher is sound and complete for [matches] *)
(* ===================================================================== *)

Section MatcherFacts.
Import RegExp.

Lemma match_at_class c q p s :
  match_at (Class c q :: p) s =
  match q with
  | ZeroOrMore => greedy c p s
  | OneOrMore =>
      match s with
      | x :: s' => if c x then option_map S (greedy c p s') else None
      | [] => None
      end
  | Once =>
      match s with
      | x :: s' => if c x then option_map S (match_at p s') else None
      | [] => None
      end
  end.
Proof.
  assert (G : forall t,
    (fix greedy (s : jsstring) : option nat :=
       match s with
       | x :: s' =>
           if c x then
             match greedy s' with
             | Some n => Some (S n)
             | None => match_at p s
             end
           else match_at p s
       | [] => match_at p []
       end) t = greedy c p t).
  { induction t as [|x t IH]; simpl; [reflexivity|]. rewrite IH. reflexivity. }
  destruct q; simpl.
  - reflexivity.
  - destruct s as [|x s']; [reflexivity|]. rewrite G. reflexivity.
  - apply G.
Qed.

Lemma greedy_sound c p (Hp : sound_at p) s :
  forall n, greedy c p s = Some n ->
    exists u m rest,
      s = u ++ m ++ rest /\ length (u ++ m) = n /\
      all_in c u /\ matches p m rest.
Proof.
  induction s as [|x s IH]; intros n H; simpl in H.
  - apply Hp in H. destruct H as (m & rest & E & L & M).
    exists [], m, rest. repeat split; auto. constructor.
  - destruct (c x) eqn:Cx.
    + destruct (greedy c p s) as [k|] eqn:G.
      * inversion H; subst n; clear H.
        destruct (IH k eq_refl) as (u & m & rest & E & L & A & M).
        exists (x :: u), m, rest. subst s. repeat split; auto.
        -- simpl. f_equal. exact L.
        -- constructor; assumption.
      * apply Hp in H. destruct H as (m & rest & E & L & M).
        exists [], m, rest. repeat split; auto. constructor.
    + apply Hp in H. destruct H as (m & rest & E & L & M).
      exists [], m, rest. repeat split; auto. constructor.
Qed.

Lemma match_at_sound p : sound_at p.
Proof.
  induction p as [|t p IH]; intros s n H.
  - simpl in H. inversion H; subst. exists [], s. repeat split. constructor.
  - destruct t as [c q|].
    + rewrite match_at_class in H. destruct q.
      * destruct s as [|x s]; [discriminate|].
        destruct (c x) eqn:Cx; [|discriminate].
        destruct (match_at p s) as [k|] eqn:K; [|discriminate].
        simpl in H. inversion H; subst n; clear H.
        destruct (IH _ _ K) as (m & rest & E & L & M).
        exists ([x] ++ m), rest. subst s. split; [reflexivity|]. split.
        -- simpl. f_equal. exact L.
        -- constructor; [constructor; assumption | assumption].
      * destruct s as [|x s]; [discriminate|].
        destruct (c x) eqn:Cx; [|discriminate].
        destruct (greedy c p s) as [k|] eqn:K; [|discriminate].
        simpl in H. inversion H; subst n; clear H.
        destruct (greedy_sound c p IH s k K) as (u & m & rest & E & L & A & M).
        exists ((x :: u) ++ m), rest. subst s. split; [|split].
        -- simpl. rewrite app_assoc. reflexivity.
        -- simpl. f_equal. exact L.
        -- constructor; [constructor; assumption | assumption].
      * destruct (greedy_sound c p IH s n H) as (u & m & rest & E & L & A & M).
        exists (u ++ m), rest. subst s. split; [|split].
        -- apply app_assoc.
        -- assumption.
        -- constructor; [constructor; assumption | assumption].
    + simpl in H. destruct s as [|x s]; [|discriminate].
      destruct (IH _ _ H) as (m & rest & E & L & M).
      symmetry in E. apply app_eq_nil in E. destruct E; subst m rest.
      exists [], []. split; [reflexivity|]. split; [exact L|].
      constructor. assumption.
Qed.

Lemma greedy_of_rest c p s n :
  match_at p s = Some n -> exists k, greedy c p s = Some k.
Proof.
  intros H. destruct s as [|x s]; simpl.
  - eauto.
  - destruct (c x); [|eauto]. destruct (greedy c p s); eauto.
Qed.

Lemma greedy_complete c p u s n :
  all_in c u -> match_at p s = Some n ->
  exists k, greedy c p (u ++ s) = Some k.
Proof.
  intros A H. induction A as [|x u Cx A IH]; simpl.
  - eapply greedy_of_rest; eassumption.
  - rewrite Cx. destruct IH as [k ->]. eauto.
Qed.

Lemma match_at_complete p m rest :
  matches p m rest -> exists n, match_at p (m ++ rest) = Some n.
Proof.
  induction 1 as [rest | p M IH | c q p u m rest R M IH].
  - simpl. eauto.
  - simpl in *. exact IH.
  - destruct IH as [n IH]. rewrite match_at_class, <- app_assoc.
    destruct R as [x Cx | x u Cx A | u A]; simpl.
    + rewrite Cx, IH. simpl. eauto.
    + rewrite Cx. destruct (greedy_complete c p _ _ _ A IH) as [k ->]. simpl. eauto.
    + exact (greedy_complete c p _ _ _ A IH).
Qed.

End MatcherFacts.

(* ===================================================================== *)
(** ** [validateEmail] *)
(* ===================================================================== *)

Section ValidateEmail.
Import RegExp.

Lemma is_char_true k c : is_char k c = true -> c = k.
Proof. unfold is_char. apply N.eqb_eq. Qed.

Lemma all_in_cons c x u : c x = true -> all_in c u -> all_in c (x :: u).
Proof. intros. constructor; assumption. Qed.

Lemma validateEmail_accepts s : validateEmail s = true -> dotted_address s.
Proof.
  unfold validateEmail, test. change (anchored emailRegex) with true. cbv iota.
  destruct (match_at (terms emailRegex) s) as [n|] eqn:H; [intros _|discriminate].
  apply match_at_sound in H. destruct H as (m & rest & E & _ & M).
  simpl in M.
  inversion M as [| |c1 q1 p1 u1 m1 r1 R1 M1]; subst; clear M.
  inversion M1 as [| |c2 q2 p2 u2 m2 r2 R2 M2]; subst; clear M1.
  inversion M2 as [| |c3 q3 p3 u3 m3 r3 R3 M3]; subst; clear M2.
  inversion M3 as [| |c4 q4 p4 u4 m4 r4 R4 M4]; subst; clear M3.
  inversion M4 as [| |c5 q5 p5 u5 m5 r5 R5 M5]; subst; clear M4.
  inversion M5 as [|p6 M6|]; subst; clear M5.
  inversion R1 as [|x1 v1 C1 A1|]; subst; clear R1.
  inversion R2 as [x2 C2| |]; subst; clear R2.
  inversion R3 as [|x3 v3 C3 A3|]; subst; clear R3.
  inversion R4 as [x4 C4| |]; subst; clear R4.
  inversion R5 as [|x5 v5 C5 A5|]; subst; clear R5.
  apply is_char_true in C2, C4. subst x2 x4.
  exists (x1 :: v1), (x3 :: v3), (x5 :: v5).
  split; [|repeat split; try discriminate; apply all_in_cons; assumption].
  rewrite !app_nil_r. reflexivity.
Qed.

Lemma validateEmail_complete s : dotted_address s -> validateEmail s = true.
Proof.
  intros (l & b & c & E & Nl & Nb & Nc & Al & Ab & Ac).
  destruct l as [|x1 v1]; [contradiction|].
  destruct b as [|x3 v3]; [contradiction|].
  destruct c as [|x5 v5]; [contradiction|].
  inversion Al; inversion Ab; inversion Ac; subst.
  assert (M : matches (terms emailRegex)
                ((x1 :: v1) ++ [ch_at] ++ (x3 :: v3) ++ [ch_dot]
                 ++ (x5 :: v5) ++ []) []).
  { simpl terms.
    repeat (apply matches_class;
            [first [ apply reps_plus; assumption
                   | apply reps_once; reflexivity ] |]).
    apply matches_end, matches_nil. }
  apply match_at_complete in M. destruct M as [n M].
  unfold validateEmail, test. change (anchored emailRegex) with true. cbv iota.
  replace ((x1 :: v1) ++ ch_at :: (x3 :: v3) ++ ch_dot :: x5 :: v5)
    with (((x1 :: v1) ++ [ch_at] ++ (x3 :: v3) ++ [ch_dot]
           ++ (x5 :: v5) ++ []) ++ []).
  - rewrite M. reflexivity.
  - rewrite !app_nil_r. reflexivity.
Qed.

End ValidateEmail.

(** C4 (as amended).  [validateEmail] accepts exactly the strings
    [local@label.rest] whose three parts are non-empty and contain neither
    whitespace nor ['@']; it accepts ["a@b.com"] and rejects
    ["not-an-address"] and the empty string. *)
Theorem validateEmail_dotted_grammar :
  (forall s, validateEmail s = true <-> dotted_address s) /\
  validateEmail (lit "a@b.com") = true /\
  validateEmail (lit "not-an-address") = false /\
  validateEmail (lit "") = false.
Proof.
  split; [|repeat split; reflexivity].
  intros s. split; [apply validateEmail_accepts | apply validateEmail_complete].
Qed.

Lemma validateEmail_dotted_grammar_witness : dotted_address (lit "a@b.com").
Proof.
  exact (proj1 (proj1 validateEmail_dotted_grammar (lit "a@b.com")) eq_refl).
Defined.

(** C4, counterexample.  ["a@b"] is an address of the two-part grammar
    (non-empty local part, ['@'], non-empty domain, no whitespace) and
    [validateEmail] rejects it. *)
Lemma validateEmail_not_two_part :
  ~ (forall s, validateEmail s = true <-> two_part_address s).
Proof.
  intros H.
  assert (T : two_part_address (lit "a@b")).
  { exists (lit "a"), (lit "b"). split; [reflexivity|].
    split; [discriminate|]. split; [discriminate|].
    repeat constructor. }
  apply H in T. vm_compute in T. discriminate.
Qed.

(* ===================================================================== *)
(** ** [stripHtml] *)
(* ===================================================================== *)

Section StripHtml.
Import RegExp.

(** Splitting a list at the first occurrence of a code unit. *)
Lemma first_split (x : code_unit) l :
  In x l -> exists a b, l = a ++ x :: b /\ ~ In x a.
Proof.
  induction l as [|y l IH]; intros H; [contradiction|].
  destruct (N.eq_dec y x) as [->|Ne].
  - exists [], l. split; [reflexivity | intros []].
  - destruct H as [H|H]; [contradiction|].
    destruct (IH H) as (a & b & -> & Na).
    exists (y :: a), b. split; [reflexivity|].
    intros [E|I]; [apply Ne, E | apply Na, I].
Qed.

Lemma first_split_unique (x : code_unit) a :
  forall a' b b', ~ In x a -> ~ In x a' ->
    a ++ x :: b = a' ++ x :: b' -> a = a' /\ b = b'.
Proof.
  induction a as [|y a IH]; intros [|y' a'] b b' Na Na' E; simpl in E.
  - inversion E. auto.
  - inversion E; subst. exfalso. apply Na'. left. reflexivity.
  - inversion E; subst. exfalso. apply Na. left. reflexivity.
  - inversion E; subst.
    destruct (IH a' b b') as [-> ->]; auto.
    + intros I. apply Na. right. exact I.
    + intros I. apply Na'. right. exact I.
Qed.

Lemma stripHtml_strip_from s : stripHtml s = strip_from 0 s.
Proof. destruct s; reflexivity. Qed.

Lemma strip_from_skip u s :
  strip_from (length u) (u ++ s) = strip_from 0 s.
Proof.
  induction u as [|x u IH]; simpl; [reflexivity|]. exact IH.
Qed.

Lemma not_gt_true x : not_gt x = true <-> x <> ch_gt.
Proof.
  unfold not_gt. rewrite negb_true_iff. apply N.eqb_neq.
Qed.

Lemma not_in_all_not_gt body : ~ In ch_gt body -> all_in not_gt body.
Proof.
  intros H. apply Forall_forall. intros x I. apply not_gt_true.
  intros ->. exact (H I).
Qed.

Lemma all_not_gt_not_in body : all_in not_gt body -> ~ In ch_gt body.
Proof.
  intros A I. unfold all_in in A. rewrite Forall_forall in A.
  apply A in I. revert I. vm_compute. discriminate.
Qed.

(** The tag pattern matches at [s] exactly when [s] starts with a tag,
    and then it consumes the tag up to the first ['>']. *)
Lemma tag_match_some s n :
  match_at tag_terms s = Some n ->
  exists body rest,
    s = ch_lt :: body ++ ch_gt :: rest /\ ~ In ch_gt body /\
    n = S (length (body ++ [ch_gt])).
Proof.
  intros H. apply match_at_sound in H.
  destruct H as (m & rest & E & L & M). unfold tag_terms in M. simpl in M.
  inversion M as [| |c1 q1 p1 u1 m1 r1 R1 M1]; subst; clear M.
  inversion M1 as [| |c2 q2 p2 u2 m2 r2 R2 M2]; subst; clear M1.
  inversion M2 as [| |c3 q3 p3 u3 m3 r3 R3 M3]; subst; clear M2.
  inversion M3; subst; clear M3.
  inversion R1 as [x1 C1| |]; subst; clear R1.
  inversion R2 as [| |v2 A2]; subst; clear R2.
  inversion R3 as [x3 C3| |]; subst; clear R3.
  apply is_char_true in C1, C3. subst x1 x3.
  exists u2, rest. split; [|split].
  - simpl. rewrite <- app_assoc. reflexivity.
  - apply all_not_gt_not_in, A2.
  - reflexivity.
Qed.

Lemma tag_match_tag body rest :
  ~ In ch_gt body ->
  match_at tag_terms (ch_lt :: body ++ ch_gt :: rest)
  = Some (S (length (body ++ [ch_gt]))).
Proof.
  intros Nb.
  assert (M : matches tag_terms ([ch_lt] ++ body ++ [ch_gt] ++ []) rest).
  { unfold tag_terms. simpl terms.
    apply matches_class; [apply reps_once; reflexivity|].
    apply matches_class; [apply reps_star, not_in_all_not_gt, Nb|].
    apply matches_class; [apply reps_once; reflexivity|].
    apply matches_nil. }
  apply match_at_complete in M. destruct M as [n M].
  replace (([ch_lt] ++ body ++ [ch_gt] ++ []) ++ rest)
    with (ch_lt :: body ++ ch_gt :: rest) in M
    by (simpl; rewrite <- app_assoc; reflexivity).
  rewrite M. f_equal.
  destruct (tag_match_some _ _ M) as (body' & rest' & E & Nb' & ->).
  inversion E as [E'].
  destruct (first_split_unique ch_gt body body' rest rest' Nb Nb' E') as [-> _].
  reflexivity.
Qed.

Lemma tag_match_none_lt t :
  match_at tag_terms (ch_lt :: t) = None -> ~ In ch_gt t.
Proof.
  intros H I. destruct (first_split ch_gt t I) as (body & rest & -> & Nb).
  rewrite (tag_match_tag body rest Nb) in H. discriminate.
Qed.

Lemma strip_from_tag body rest :
  ~ In ch_gt body ->
  strip_from 0 (ch_lt :: body ++ ch_gt :: rest) = strip_from 0 rest.
Proof.
  intros Nb. unfold strip_from at 1. simpl replace_from.
  unfold attempt. change (anchored tagRegex && negb false) with false. cbv iota.
  change (terms tagRegex) with tag_terms.
  rewrite (tag_match_tag body rest Nb). simpl app.
  change (replace_from tagRegex [] false) with strip_from.
  replace (body ++ ch_gt :: rest) with ((body ++ [ch_gt]) ++ rest)
    by (rewrite <- app_assoc; reflexivity).
  apply strip_from_skip.
Qed.

Lemma strip_from_keep x s :
  match_at tag_terms (x :: s) = None ->
  strip_from 0 (x :: s) = x :: strip_from 0 s.
Proof.
  intros H. unfold strip_from at 1. simpl replace_from.
  unfold attempt. change (anchored tagRegex && negb false) with false. cbv iota.
  change (terms tagRegex) with tag_terms. rewrite H. reflexivity.
Qed.

Lemma has_tag_cons x s :
  has_tag (x :: s) ->
  (x = ch_lt /\ In ch_gt s) \/ has_tag s.
Proof.
  intros (pre & body & post & E). destruct pre as [|y pre]; simpl in E.
  - inversion E; subst. left. split; [reflexivity|].
    apply in_or_app. right. left. reflexivity.
  - inversion E; subst. right. exists pre, body, post. reflexivity.
Qed.

Lemma tags_removed_cons x s out :
  match_at tag_terms (x :: s) = None ->
  tags_removed s out -> tags_removed (x :: s) (x :: out).
Proof.
  intros H T. destruct T as [s Hn | pre body rest out Np Nb T].
  - apply tags_none. intros Ht. apply has_tag_cons in Ht.
    destruct Ht as [[-> I] | Ht]; [|exact (Hn Ht)].
    exact (tag_match_none_lt _ H I).
  - apply (tags_one (x :: pre) body rest out); try assumption.
    intros [E | I]; [|exact (Np I)]. subst x.
    apply (tag_match_none_lt _ H).
    apply in_or_app. right. right. apply in_or_app. right. left. reflexivity.
Qed.

Lemma strip_from_removes n :
  forall s, length s <= n -> tags_removed s (strip_from 0 s).
Proof.
  induction n as [|n IH]; intros s L.
  - destruct s; [|simpl in L; lia]. apply tags_none.
    intros ([|? ?] & ? & ? & E); discriminate.
  - destruct s as [|x s].
    + apply tags_none. intros ([|? ?] & ? & ? & E); discriminate.
    + destruct (match_at tag_terms (x :: s)) as [k|] eqn:M.
      * destruct (tag_match_some _ _ M) as (body & rest & E & Nb & _).
        rewrite E, (strip_from_tag body rest Nb).
        apply (tags_one [] body rest (strip_from 0 rest)); auto.
        apply IH. inversion E; subst. simpl in L.
        rewrite length_app in L. simpl in L. lia.
      * rewrite (strip_from_keep _ _ M). apply tags_removed_cons; [exact M|].
        apply IH. simpl in L. lia.
Qed.

Lemma stripHtml_removes s : tags_removed s (stripHtml s).
Proof.
  rewrite stripHtml_strip_from. apply (strip_from_removes (length s)). lia.
Qed.

Lemma tags_removed_no_tag s out : tags_removed s out -> ~ has_tag out.
Proof.
  induction 1 as [s Hn | pre body rest out Np Nb T IH]; [exact Hn|].
  intros (p & b & q & E).
  apply app_eq_app in E. destruct E as (l & [[E1 E2] | [E1 E2]]).
  - destruct l as [|y l].
    + simpl in E2. apply IH. exists [], b, q. symmetry. exact E2.
    + simpl in E2. inversion E2; subst. apply Np.
      apply in_or_app. right. left. reflexivity.
  - apply IH. exists l, b, q. exact E2.
Qed.

Lemma tags_removed_fun s o1 :
  tags_removed s o1 -> forall o2, tags_removed s o2 -> o1 = o2.
Proof.
  induction 1 as [s Hn | pre body rest out Np Nb T IH]; intros o2 H2.
  - inversion H2 as [? ? | pre' body' rest' out' Np' Nb' T' E]; subst;
      [reflexivity|].
    exfalso. apply Hn. exists pre', body', rest'. reflexivity.
  - inversion H2 as [? Hn' | pre' body' rest' out' Np' Nb' T' E]; subst.
    + exfalso. apply Hn'. exists pre, body, rest. reflexivity.
    + destruct (first_split_unique ch_lt pre' pre _ _ Np' Np E) as [-> E2].
      destruct (first_split_unique ch_gt body' body _ _ Nb' Nb E2) as [-> ->].
      f_equal. apply IH. exact T'.
Qed.

End StripHtml.

(* ===================================================================== *)
(** ** [sendEmail] and the batches of [sendCampaign] *)
(* ===================================================================== *)

Section SendFacts.

Variable resend : Transport.

Lemma sendEmail_run d w :
  sendEmail resend d w =
  (Fulfilled (outcome_of (resend w (request_of d))),
   w ++ [EvSend (request_of d)]).
Proof.
  unfold sendEmail, try_catch, bind, emails_send, ret.
  destruct (resend w (request_of d)); reflexivity.
Qed.

Lemma outcome_of_well_formed a : well_formed (outcome_of a).
Proof.
  destruct a as [[d [e|]]|e]; simpl; unfold response_of; simpl.
  - right. repeat split. eexists. reflexivity.
  - left. split; reflexivity.
  - right. repeat split. eexists. reflexivity.
Qed.

Lemma sends_of_app u v : sends_of (u ++ v) = sends_of u ++ sends_of v.
Proof. apply flat_map_app. Qed.

Lemma delays_of_app u v : delays_of (u ++ v) = delays_of u ++ delays_of v.
Proof. apply flat_map_app. Qed.

Lemma promise_all_fulfilled {A} (l : list A) :
  promise_all (map Fulfilled l) = Fulfilled l.
Proof.
  induction l as [|a l IH]; simpl; [reflexivity|]. rewrite IH. reflexivity.
Qed.

Section Campaign.

Variables (subject content : jsstring) (from : option jsstring).

Let req := campaign_request subject content from.
Let mk := campaign_email subject content from.

(** Starting a batch: all sends are issued in order; nothing rejects. *)
Lemma map_async_sendEmail batch :
  forall w, exists os,
    map_async (fun r => sendEmail resend (mk r)) batch w
    = (map Fulfilled os, w ++ map (fun r => EvSend (req r)) batch) /\
    attempts resend req w batch os
             (w ++ map (fun r => EvSend (req r)) batch).
Proof.
  induction batch as [|r batch IH]; intros w.
  - exists []. simpl. rewrite app_nil_r. split; [reflexivity|constructor].
  - simpl. rewrite sendEmail_run.
    destruct (IH (w ++ [EvSend (request_of (mk r))])) as (os & E & T).
    rewrite E. rewrite <- app_assoc in *. simpl in *.
    exists (outcome_of (resend w (req r)) :: os). split; [reflexivity|].
    apply (attempts_cons resend req w r batch os _ []); [reflexivity|].
    exact T.
Qed.

Lemma attempts_app w rs1 os1 w1 :
  attempts resend req w rs1 os1 w1 ->
  forall rs2 os2 w2,
    attempts resend req w1 rs2 os2 w2 ->
    attempts resend req w (rs1 ++ rs2) (os1 ++ os2) w2.
Proof.
  induction 1 as [w | w r rs os w' pauses P T IH]; intros rs2 os2 w2 T2.
  - exact T2.
  - simpl. apply (attempts_cons resend req w r _ _ w2 pauses P).
    apply IH, T2.
Qed.

Lemma attempts_pause w rs os w' ms :
  attempts resend req w rs os w' -> rs <> [] ->
  attempts resend req w rs os (w' ++ [EvDelay ms]).
Proof.
  induction 1 as [w | w r rs os w' pauses P T IH]; intros Ne.
  - contradiction.
  - destruct rs as [|r' rs].
    + inversion T; subst.
      apply (attempts_cons resend req w r [] [] _ (pauses ++ [EvDelay ms])).
      * rewrite sends_of_app, P. reflexivity.
      * rewrite <- app_assoc. simpl. constructor.
    + apply (attempts_cons resend req w r _ _ _ pauses P).
      apply IH. discriminate.
Qed.

Lemma attempts_extends w rs os w' :
  attempts resend req w rs os w' ->
  exists t, w' = w ++ t /\ sends_of t = map req rs.
Proof.
  induction 1 as [w | w r rs os w' pauses P T (t & E & St)].
  - exists []. rewrite app_nil_r. auto.
  - exists (EvSend (req r) :: pauses ++ t). split.
    + rewrite E, <- app_assoc. reflexivity.
    + simpl. rewrite sends_of_app, P, St. reflexivity.
Qed.

Lemma attempts_length w rs os w' :
  attempts resend req w rs os w' -> length os = length rs.
Proof. induction 1; simpl; congruence. Qed.


Lemma attempts_nth w rs os w' :
  attempts resend req w rs os w' ->
  forall i r, nth_error rs i = Some r ->
    exists wi tail,
      w' = wi ++ EvSend (req r) :: tail /\
      sends_of wi = sends_of w ++ map req (firstn i rs) /\
      nth_error os i = Some (outcome_of (resend wi (req r))).
Proof.
  induction 1 as [w | w r0 rs os w' pauses P T IH]; intros i r Hi.
  - destruct i; discriminate.
  - destruct i as [|i]; simpl in Hi.
    + inversion Hi; subst r0.
      destruct (attempts_extends _ _ _ _ T) as (t & E & _).
      exists w, (pauses ++ t). split; [|split].
      * rewrite E, <- app_assoc. reflexivity.
      * simpl. rewrite app_nil_r. reflexivity.
      * reflexivity.
    + destruct (IH i r Hi) as (wi & tail & E & S & N).
      exists wi, tail. split; [exact E|]. split; [|exact N].
      rewrite S, sends_of_app. simpl. rewrite P, <- app_assoc. reflexivity.
Qed.

End Campaign.
End SendFacts.

(* ===================================================================== *)
(** ** The loop of [sendCampaign] *)
(* ===================================================================== *)

Section LoopFacts.

Variable resend : Transport.
Variables (subject content : jsstring) (from : option jsstring).

Let req := campaign_request subject content from.

Lemma slice_skipn {A} (l : list A) i b :
  slice l i (i + b) ++ skipn (i + b) l = skipn i l.
Proof.
  unfold slice. replace (i + b - i) with b by lia.
  rewrite Nat.add_comm, <- skipn_skipn. apply firstn_skipn.
Qed.

Lemma slice_nonempty {A} (l : list A) i :
  i < length l -> slice l i (i + batchSize) <> [].
Proof.
  intros H E. apply (f_equal (@length A)) in E. unfold slice in E.
  rewrite length_firstn, length_skipn in E. unfold batchSize in E.
  simpl in E. lia.
Qed.

Lemma pause_if_remaining {A} (l : list A) a (X : list Event) :
  (if a <? length l then X else [])
  = match skipn a l with [] => [] | _ :: _ => X end.
Proof.
  pose proof (length_skipn a l) as L.
  destruct (a <? length l) eqn:C.
  - apply Nat.ltb_lt in C. destruct (skipn a l); [simpl in L; lia|reflexivity].
  - apply Nat.ltb_ge in C. destruct (skipn a l); [reflexivity|simpl in L; lia].
Qed.

Lemma campaign_batch_run R i results w :
  exists bos,
    campaign_batch resend R subject content from i results w
    = (Fulfilled (results ++ bos),
       w ++ map (fun r => EvSend (req r)) (slice R i (i + batchSize))
         ++ (if i + batchSize <? length R then [EvDelay 1000] else [])) /\
    attempts resend req w (slice R i (i + batchSize)) bos
       (w ++ map (fun r => EvSend (req r)) (slice R i (i + batchSize))).
Proof.
  unfold campaign_batch.
  destruct (map_async_sendEmail resend subject content from
              (slice R i (i + batchSize)) w) as (bos & E & T).
  rewrite E. unfold bind, await. rewrite promise_all_fulfilled.
  exists bos. split; [|exact T].
  destruct (i + batchSize <? length R); unfold delay, ret.
  - rewrite <- app_assoc. reflexivity.
  - rewrite app_nil_r. reflexivity.
Qed.

(** Loop invariant, outcomes: from index [i] on, every remaining recipient
    is attempted once, in order, and the loop returns. *)
Lemma campaign_loop_attempts R i results w :
  exists os w',
    campaign_loop resend R subject content from i results w
    = (Fulfilled (results ++ os), w') /\
    attempts resend req w (skipn i R) os w'.
Proof.
  funelim (campaign_loop resend R subject content from i results w).
  - exists [], w. rewrite app_nil_r. split; [reflexivity|].
    rewrite skipn_all2 by lia. constructor.
  - destruct (campaign_batch_run recipients i results w) as (bos & E & T).
    rewrite E in Heq. inversion Heq; subst results' w'. clear Heq.
    destruct H as (os & w2 & E2 & T2).
    exists (bos ++ os), w2. split.
    + rewrite E2, app_assoc. reflexivity.
    + rewrite <- (slice_skipn recipients i batchSize).
      refine (attempts_app resend subject content from _ _ _ _ _ _ _ _ T2).
      destruct (i + batchSize <? length recipients).
      * rewrite app_assoc. apply attempts_pause; [exact T|].
        apply slice_nonempty. assumption.
      * rewrite app_nil_r. exact T.
  - destruct (campaign_batch_run recipients i results w) as (bos & E & _).
    rewrite E in Heq. discriminate.
Qed.

Lemma batch_count_done n k : ~ batchSize * k < n -> batch_count n - k = 0.
Proof.
  unfold batch_count, batchSize. change (10 - 1) with 9. intros H.
  assert ((n + 9) / 10 < S k); [|lia].
  apply Nat.Div0.div_lt_upper_bound. lia.
Qed.

Lemma batch_count_more n k :
  batchSize * k < n -> batch_count n - k = S (batch_count n - S k).
Proof.
  unfold batch_count, batchSize. change (10 - 1) with 9. intros H.
  assert (S k <= (n + 9) / 10); [|lia].
  apply Nat.div_le_lower_bound; lia.
Qed.

(** Loop invariant, trace: from batch [k] on, the loop appends the events
    of the remaining batches. *)
Lemma campaign_loop_trace R i results w :
  forall k, i = batchSize * k ->
    snd (campaign_loop resend R subject content from i results w)
    = w ++ flat_map (batch_events req R)
                    (seq k (batch_count (length R) - k)).
Proof.
  funelim (campaign_loop resend R subject content from i results w);
    intros k Hk.
  - subst i. rewrite batch_count_done by assumption. simpl.
    rewrite app_nil_r. reflexivity.
  - destruct (campaign_batch_run recipients i results w) as (bos & E & _).
    rewrite E in Heq. inversion Heq; subst results' w'. clear Heq.
    rewrite (H (S k)) by (subst i; unfold batchSize; lia).
    subst i. rewrite (batch_count_more (length recipients) k) by assumption.
    simpl flat_map. unfold batch_events at 2.
    rewrite <- pause_if_remaining, <- !app_assoc. reflexivity.
  - destruct (campaign_batch_run recipients i results w) as (bos & E & _).
    rewrite E in Heq. discriminate.
Qed.

(** [sendCampaign] returns; its outcomes come from one attempt per
    recipient, in order; its trace grows by the events of the batches. *)
Lemma sendCampaign_run R w :
  exists os,
    sendCampaign resend R subject content from w
    = (Fulfilled os, w ++ campaign_events req R) /\
    attempts resend req w R os (w ++ campaign_events req R).
Proof.
  destruct (campaign_loop_attempts R 0 [] w) as (os & w' & E & T).
  pose proof (campaign_loop_trace R 0 [] w 0 eq_refl) as Tr.
  rewrite E in Tr. simpl in Tr. rewrite Nat.sub_0_r in Tr.
  fold (campaign_events req R) in Tr. subst w'.
  exists os. unfold sendCampaign, try_catch. rewrite E. auto.
Qed.

End LoopFacts.

(* ===================================================================== *)
(** ** The properties of the specification *)
(* ===================================================================== *)

(** C1.  For every recipient list (duplicates allowed) [sendCampaign]
    returns as many outcomes as there are recipients.  The recipient at
    index [i] has its own transport call, for the message addressed to
    that recipient alone, issued when exactly the recipients before it had
    been sent to; the outcome at index [i] is what [sendEmail] returned
    for that message, that is the outcome of the transport's answer to
    it. *)
Theorem sendCampaign_outcomes_in_order :
  forall (resend : Transport) (R : list jsstring)
         (subject content : jsstring) (from : option jsstring) (w : Trace),
    let message := fun r =>
      {| rq_from := js_or from defaultFrom;
         rq_to := [r];
         rq_subject := subject;
         rq_html := content;
         rq_text := stripHtml content |} in
    exists outs w',
      sendCampaign resend R subject content from w = (Fulfilled outs, w') /\
      length outs = length R /\
      forall i r, nth_error R i = Some r ->
        exists wi tail o,
          w' = wi ++ EvSend (message r) :: tail /\
          sends_of wi = sends_of w ++ map message (firstn i R) /\
          sendEmail resend
                    {| to := Single r; subject := subject; content := content;
                       from := from; html := None; text := None |} wi
          = (Fulfilled o, wi ++ [EvSend (message r)]) /\
          o = outcome_of (resend wi (message r)) /\
          nth_error outs i = Some o.
Proof.
  intros resend R subject content from w message.
  destruct (sendCampaign_run resend subject content from R w) as (os & E & T).
  exists os, (w ++ campaign_events (campaign_request subject content from) R).
  split; [exact E|]. split; [eapply attempts_length; exact T|].
  intros i r Hi.
  destruct (attempts_nth _ _ _ _ _ _ _ _ T i r Hi) as (wi & tail & Ew & S & N).
  exists wi, tail, (outcome_of (resend wi (message r))).
  split; [exact Ew|]. split; [exact S|].
  split; [|split; [reflexivity|exact N]].
  exact (sendEmail_run resend
           {| to := Single r; subject := subject; content := content;
              from := from; html := None; text := None |} wi).
Qed.

Lemma sendCampaign_outcomes_in_order_witness :
  exists outs w',
    sendCampaign always_ok [lit "a@x.com"; lit "a@x.com"]
                 (lit "Hi") (lit "<p>hi</p>") None []
    = (Fulfilled outs, w') /\
    length outs = 2 /\
    exists o, nth_error outs 1 = Some o.
Proof.
  destruct (sendCampaign_outcomes_in_order always_ok
              [lit "a@x.com"; lit "a@x.com"] (lit "Hi") (lit "<p>hi</p>")
              None [])
    as (outs & w' & E & L & N).
  exists outs, w'. split; [exact E|]. split; [exact L|].
  destruct (N 1 (lit "a@x.com") eq_refl) as (_ & _ & o & _ & _ & _ & _ & No).
  exists o. exact No.
Defined.

(** C2 (as amended).  [sendEmail] does not check the address: for every
    recipient, valid or not, it calls the transport once and the outcome
    is the transport's answer; ["bad"] is rejected by [validateEmail], and
    with an always-succeeding transport the scenario campaign, which
    contains it, returns three successes after three transport calls. *)
Theorem sendEmail_no_address_check :
  (forall (resend : Transport) r subject content from w,
      sendEmail resend (campaign_email subject content from r) w
      = (Fulfilled
           (outcome_of (resend w (campaign_request subject content from r))),
         w ++ [EvSend (campaign_request subject content from r)])) /\
  validateEmail (lit "bad") = false /\
  sendCampaign always_ok scenario_recipients (lit "Hi") (lit "<p>hi</p>") None []
  = (Fulfilled [accepted; accepted; accepted],
     send_events (campaign_request (lit "Hi") (lit "<p>hi</p>") None)
                 scenario_recipients).
Proof.
  split; [|split; reflexivity].
  intros resend r subject content from w. apply sendEmail_run.
Qed.

Lemma sendEmail_no_address_check_witness :
  sendEmail always_ok (campaign_email (lit "Hi") (lit "<p>hi</p>") None (lit "bad")) []
  = (Fulfilled accepted,
     [EvSend (campaign_request (lit "Hi") (lit "<p>hi</p>") None (lit "bad"))]).
Proof.
  exact (proj1 sendEmail_no_address_check always_ok (lit "bad") (lit "Hi")
               (lit "<p>hi</p>") None []).
Defined.

(** C2, counterexample.  ["bad"] is not a valid address, and the scenario
    campaign still sends to it and reports a success at index 1, not
    [Failure("invalid address")]. *)
Lemma invalid_address_is_sent :
  validateEmail (lit "bad") = false /\
  fst (sendCampaign always_ok scenario_recipients (lit "Hi") (lit "<p>hi</p>")
                    None [])
  <> Fulfilled [accepted; failure (lit "invalid address"); accepted] /\
  In (campaign_request (lit "Hi") (lit "<p>hi</p>") None (lit "bad"))
     (sends_of (snd (sendCampaign always_ok scenario_recipients (lit "Hi")
                                  (lit "<p>hi</p>") None []))).
Proof.
  split; [reflexivity|]. split.
  - vm_compute. discriminate.
  - vm_compute. right. left. reflexivity.
Qed.

(** C3 (as amended).  [sendCampaign] checks none of its arguments: for
    every recipient list, subject and body, empty or not, it never fails
    fast; it returns one outcome per recipient after one transport call
    per recipient. *)
Theorem sendCampaign_never_fails_fast :
  forall (resend : Transport) (R : list jsstring)
         (subject content : jsstring) (from : option jsstring) (w : Trace),
    ~ fails_fast (sendCampaign resend R subject content from) w /\
    exists outs w',
      sendCampaign resend R subject content from w = (Fulfilled outs, w') /\
      length outs = length R /\
      sends_of w'
      = sends_of w ++ map (campaign_request subject content from) R.
Proof.
  intros resend R subject content from w.
  destruct (sendCampaign_run resend subject content from R w) as (os & E & T).
  split.
  - intros [e F]. rewrite E in F. discriminate.
  - exists os, (w ++ campaign_events (campaign_request subject content from) R).
    split; [exact E|]. split; [eapply attempts_length; exact T|].
    destruct (attempts_extends _ _ _ _ _ _ _ _ T) as (t & Et & St).
    rewrite Et, sends_of_app, St. reflexivity.
Qed.

Lemma sendCampaign_never_fails_fast_witness :
  ~ fails_fast (sendCampaign always_ok [lit "a@x.com"] [] [] None) [].
Proof.
  exact (proj1 (sendCampaign_never_fails_fast always_ok [lit "a@x.com"]
                  [] [] None [])).
Defined.

(** C3, counterexample.  With an empty recipient list the call returns the
    empty list, and with an empty subject and body it sends to the
    recipient and returns its outcome: neither call fails fast. *)
Lemma sendCampaign_empty_inputs_return :
  sendCampaign always_ok [] (lit "Hi") (lit "<p>hi</p>") None []
  = (Fulfilled [], []) /\
  ~ fails_fast (sendCampaign always_ok [] (lit "Hi") (lit "<p>hi</p>") None) [] /\
  sendCampaign always_ok [lit "a@x.com"] [] [] None []
  = (Fulfilled [accepted],
     [EvSend (campaign_request [] [] None (lit "a@x.com"))]) /\
  ~ fails_fast (sendCampaign always_ok [lit "a@x.com"] [] [] None) [].
Proof.
  split; [reflexivity|]. split; [intros [e F]; vm_compute in F; discriminate|].
  split; [reflexivity|]. intros [e F]. vm_compute in F. discriminate.
Qed.

Section DelayCount.

Variable req : jsstring -> SendRequest.

Lemma delays_of_sends rs : delays_of (send_events req rs) = [].
Proof. induction rs; simpl; auto. Qed.

Lemma delays_of_batch R k :
  delays_of (batch_events req R k)
  = match skipn (batchSize * k + batchSize) R with
    | [] => []
    | _ :: _ => [1000]
    end.
Proof.
  unfold batch_events. rewrite delays_of_app, delays_of_sends.
  destruct (skipn (batchSize * k + batchSize) R); reflexivity.
Qed.

Lemma delays_of_flat_map (f : nat -> list Event) l :
  delays_of (flat_map f l) = flat_map (fun k => delays_of (f k)) l.
Proof.
  induction l as [|k l IH]; simpl; [reflexivity|].
  rewrite delays_of_app, IH. reflexivity.
Qed.

Lemma flat_map_ones (g : nat -> list nat) m :
  forall a, (forall k, a <= k < a + m -> g k = [1000]) ->
    flat_map g (seq a m) = repeat 1000 m.
Proof.
  induction m as [|m IH]; intros a H; simpl; [reflexivity|].
  rewrite (H a) by lia. simpl. f_equal. apply IH. intros k Hk. apply H. lia.
Qed.

Lemma batch_count_bounds n :
  batchSize * batch_count n < n + batchSize /\ n <= batchSize * batch_count n.
Proof.
  unfold batch_count, batchSize. change (10 - 1) with 9.
  pose proof (Nat.div_mod_eq (n + 9) 10) as D.
  pose proof (Nat.mod_upper_bound (n + 9) 10) as U. lia.
Qed.

Lemma delays_of_campaign R :
  delays_of (campaign_events req R)
  = repeat 1000 (batch_count (length R) - 1).
Proof.
  unfold campaign_events. rewrite delays_of_flat_map.
  pose proof (batch_count_bounds (length R)) as [B1 B2].
  destruct (batch_count (length R)) as [|b] eqn:Eb; [reflexivity|].
  replace (S b) with (b + 1) by lia. rewrite seq_app, flat_map_app.
  rewrite (flat_map_ones _ b 0).
  - simpl. rewrite delays_of_batch.
    rewrite skipn_all2 by (unfold batchSize in *; lia).
    rewrite app_nil_r. f_equal. lia.
  - intros k Hk. rewrite delays_of_batch.
    pose proof (length_skipn (batchSize * k + batchSize) R) as L.
    destruct (skipn (batchSize * k + batchSize) R); [|reflexivity].
    simpl in L. unfold batchSize in *. lia.
Qed.

End DelayCount.

(** C5.  The trace of [sendCampaign] is, batch after batch, the sends of
    the batch followed by the 1000 ms pause exactly when recipients remain
    after that batch; the number of pauses is the number of batches minus
    one; for 25 recipients there are exactly two pauses, after the first
    and after the second batch of ten, and none after the last five. *)
Theorem sendCampaign_pauses_between_batches :
  forall (resend : Transport) (R : list jsstring)
         (subject content : jsstring) (from : option jsstring) (w : Trace),
    let req := campaign_request subject content from in
    snd (sendCampaign resend R subject content from w)
    = w ++ campaign_events req R /\
    delays_of (campaign_events req R)
    = repeat 1000 (batch_count (length R) - 1) /\
    (length R = 25 ->
     campaign_events req R
     = send_events req (slice R 0 10) ++ [EvDelay 1000]
       ++ send_events req (slice R 10 20) ++ [EvDelay 1000]
       ++ send_events req (slice R 20 25) /\
     delays_of (campaign_events req R) = [1000; 1000]).
Proof.
  intros resend R subject content from w req.
  destruct (sendCampaign_run resend subject content from R w) as (os & E & _).
  split; [rewrite E; reflexivity|].
  split; [apply delays_of_campaign|].
  intros L. split.
  - unfold campaign_events. rewrite L.
    do 25 (destruct R as [|? R]; [discriminate|]).
    destruct R; [reflexivity|discriminate].
  - rewrite delays_of_campaign, L. reflexivity.
Qed.

Lemma sendCampaign_pauses_between_batches_witness :
  delays_of (campaign_events (campaign_request (lit "Hi") (lit "<p>hi</p>") None)
                             (repeat (lit "a@x.com") 25))
  = [1000; 1000].
Proof.
  exact (proj2 (proj2 (proj2 (sendCampaign_pauses_between_batches always_ok
           (repeat (lit "a@x.com") 25) (lit "Hi") (lit "<p>hi</p>") None []))
           eq_refl)).
Defined.

(** C6.  When the transport call of a recipient is rejected (a thrown
    fault), [sendEmail] catches it and returns a failure whose reason is
    the fault's description: the message of an [Error], ['Unknown error']
    for any other thrown value.  [sendCampaign] never rejects: it returns
    its outcome list, in which a recipient whose call was rejected has
    that failure. *)
Theorem transport_fault_becomes_failure :
  forall (resend : Transport),
    (forall d w e,
        resend w (request_of d) = Rejected e ->
        sendEmail resend d w
        = (Fulfilled (failure (describe e)), w ++ [EvSend (request_of d)])) /\
    (forall m, describe (ErrorObject m) = m) /\
    describe OtherValue = lit "Unknown error" /\
    (forall R subject content from w,
      exists outs w',
        sendCampaign resend R subject content from w = (Fulfilled outs, w') /\
        forall i r, nth_error R i = Some r ->
          exists wi tail,
            w' = wi ++ EvSend (campaign_request subject content from r) :: tail /\
            forall e,
              resend wi (campaign_request subject content from r) = Rejected e ->
              nth_error outs i = Some (failure (describe e))).
Proof.
  intros resend. split; [|split; [reflexivity|split; [reflexivity|]]].
  - intros d w e H. rewrite sendEmail_run, H. reflexivity.
  - intros R subject content from w.
    destruct (sendCampaign_run resend subject content from R w) as (os & E & T).
    exists os, (w ++ campaign_events (campaign_request subject content from) R).
    split; [exact E|]. intros i r Hi.
    destruct (attempts_nth _ _ _ _ _ _ _ _ T i r Hi) as (wi & tail & Ew & _ & N).
    exists wi, tail. split; [exact Ew|].
    intros e He. rewrite N, He. reflexivity.
Qed.

Lemma transport_fault_becomes_failure_witness :
  sendEmail always_down
            (campaign_email (lit "Hi") (lit "<p>hi</p>") None (lit "a@x.com")) []
  = (Fulfilled (failure (lit "network error")),
     [EvSend (campaign_request (lit "Hi") (lit "<p>hi</p>") None (lit "a@x.com"))]).
Proof.
  exact (proj1 (transport_fault_becomes_failure always_down)
               (campaign_email (lit "Hi") (lit "<p>hi</p>") None (lit "a@x.com"))
               [] (ErrorObject (lit "network error")) eq_refl).
Defined.

(** C7.  [sendCampaign] does not stop at a failure: whatever the transport
    answers, the transport is called once for every list entry, in list
    order, each time with the message addressed to that entry alone; there
    is one outcome per entry, and after a failed entry [k] every later
    entry [j] still has the send addressed to it and its outcome. *)
Theorem sendCampaign_no_short_circuit :
  forall (resend : Transport) (R : list jsstring)
         (subject content : jsstring) (from : option jsstring) (w : Trace),
    let message := fun r =>
      {| rq_from := js_or from defaultFrom;
         rq_to := [r];
         rq_subject := subject;
         rq_html := content;
         rq_text := stripHtml content |} in
    exists outs w',
      sendCampaign resend R subject content from w = (Fulfilled outs, w') /\
      sends_of w' = sends_of w ++ map message R /\
      map rq_to (sends_of w') = map rq_to (sends_of w) ++ map (fun r => [r]) R /\
      length outs = length R /\
      forall k o, nth_error outs k = Some o -> success o = false ->
        forall j r, k < j -> nth_error R j = Some r ->
          exists wj tail oj,
            w' = wj ++ EvSend (message r) :: tail /\
            sends_of wj = sends_of w ++ map message (firstn j R) /\
            oj = outcome_of (resend wj (message r)) /\
            nth_error outs j = Some oj.
Proof.
  intros resend R subject content from w message.
  destruct (sendCampaign_run resend subject content from R w) as (os & E & T).
  exists os, (w ++ campaign_events (campaign_request subject content from) R).
  split; [exact E|].
  assert (S0 : sends_of (w ++ campaign_events
                                (campaign_request subject content from) R)
               = sends_of w ++ map message R).
  { destruct (attempts_extends _ _ _ _ _ _ _ _ T) as (t & Et & St).
    rewrite Et, sends_of_app, St. reflexivity. }
  split; [exact S0|]. split; [|split].
  - rewrite S0, map_app, map_map. reflexivity.
  - eapply attempts_length; exact T.
  - intros k o _ _ j r _ Hj.
    destruct (attempts_nth _ _ _ _ _ _ _ _ T j r Hj) as (wj & tail & Ew & S & N).
    exists wj, tail, (outcome_of (resend wj (message r))).
    split; [exact Ew|]. split; [exact S|]. split; [reflexivity|exact N].
Qed.

Lemma sendCampaign_no_short_circuit_witness :
  exists outs w',
    sendCampaign always_down [lit "a@x.com"; lit "b@x.com"]
                 (lit "Hi") (lit "<p>hi</p>") None []
    = (Fulfilled outs, w') /\
    map rq_to (sends_of w') = [[lit "a@x.com"]; [lit "b@x.com"]] /\
    length outs = 2.
Proof.
  destruct (sendCampaign_no_short_circuit always_down
              [lit "a@x.com"; lit "b@x.com"] (lit "Hi") (lit "<p>hi</p>")
              None [])
    as (outs & w' & E & _ & S & L & _).
  exists outs, w'. split; [exact E|]. split; [exact S|exact L].
Defined.



(** C9 (as amended).  The request passed to the transport carries as plain
    text the supplied [text] when it is a non-empty string, and otherwise
    (no [text], or an empty one) [stripHtml] of the content, which is the
    content with every tag, from a ['<'] to the next ['>'], deleted and
    the text outside tags unchanged; no tag is left in it. *)
Theorem plain_text_fallback_strips_tags :
  forall (resend : Transport) (d : EmailData) (w : Trace),
    snd (sendEmail resend d w) = w ++ [EvSend (request_of d)] /\
    (forall t, text d = Some t -> t <> [] -> rq_text (request_of d) = t) /\
    (text d = None \/ text d = Some [] ->
     rq_text (request_of d) = stripHtml (content d)) /\
    (forall out, tags_removed (content d) out <-> out = stripHtml (content d)) /\
    ~ has_tag (stripHtml (content d)).
Proof.
  intros resend d w. split; [rewrite sendEmail_run; reflexivity|].
  split; [|split; [|split]].
  - intros t Ht Ne. unfold request_of. simpl. rewrite Ht.
    destruct t; [contradiction|reflexivity].
  - intros [Ht|Ht]; unfold request_of; simpl; rewrite Ht; reflexivity.
  - intros out. split.
    + intros T. symmetry.
      exact (tags_removed_fun _ _ (stripHtml_removes (content d)) _ T).
    + intros ->. apply stripHtml_removes.
  - exact (tags_removed_no_tag _ _ (stripHtml_removes (content d))).
Qed.

Lemma plain_text_fallback_strips_tags_witness :
  rq_text (request_of (campaign_email (lit "Hi") (lit "<p>hi</p>") None
                                      (lit "a@x.com")))
  = lit "hi".
Proof.
  exact (proj1 (proj2 (proj2 (plain_text_fallback_strips_tags always_ok
           (campaign_email (lit "Hi") (lit "<p>hi</p>") None (lit "a@x.com"))
           []))) (or_introl eq_refl)).
Defined.

(** C9, counterexample.  A send with the plain text [""] supplied does not
    pass [""] to the transport but the stripped content. *)
Lemma empty_text_is_replaced :
  let d := {| to := Single (lit "a@x.com"); subject := lit "Hi";
              content := lit "<p>hi</p>"; from := None; html := None;
              text := Some (lit "") |} in
  text d = Some (lit "") /\
  snd (sendEmail always_ok d []) = [EvSend (request_of d)] /\
  rq_text (request_of d) = lit "hi" /\
  rq_text (request_of d) <> lit "".
Proof.
  repeat split. vm_compute. discriminate.
Qed.

(** C10.  With an empty recipient list [sendCampaign] returns the empty
    outcome list; the trace is unchanged: no transport call, no pause. *)
Theorem sendCampaign_no_recipients :
  forall (resend : Transport) (subject content : jsstring)
         (from : option jsstring) (w : Trace),
    sendCampaign resend [] subject content from w = (Fulfilled [], w).
Proof.
  intros resend subject content from w.
  destruct (sendCampaign_run resend subject content from [] w) as (os & E & T).
  rewrite E. change (campaign_events (campaign_request subject content from) [])
    with (@nil Event). rewrite app_nil_r.
  inversion T; subst. reflexivity.
Qed.

(* ===================================================================== *)
(** ** More on [validateEmail] and [stripHtml] *)
(* ===================================================================== *)

Section AddressShape.
Import RegExp.

Lemma not_space_at_true c :
  not_space_at c = true -> is_space c = false /\ c <> ch_at.
Proof.
  unfold not_space_at. rewrite negb_true_iff, orb_false_iff, N.eqb_neq. auto.
Qed.

Lemma all_in_no_space u :
  all_in not_space_at u -> Forall (fun c => is_space c = false) u.
Proof.
  intros A. eapply Forall_impl; [|exact A].
  intros c H. apply not_space_at_true in H. tauto.
Qed.

Lemma all_in_no_at u :
  all_in not_space_at u -> count_occ N.eq_dec u ch_at = 0.
Proof.
  intros A. apply count_occ_not_In. intros I.
  unfold all_in in A. rewrite Forall_forall in A.
  apply A, not_space_at_true in I. tauto.
Qed.

Lemma dotted_no_space l b c :
  all_in not_space_at l -> all_in not_space_at b -> all_in not_space_at c ->
  Forall (fun x => is_space x = false) (l ++ ch_at :: b ++ ch_dot :: c).
Proof.
  intros Al Ab Ac.
  apply Forall_app. split; [apply all_in_no_space, Al|].
  constructor; [reflexivity|].
  apply Forall_app. split; [apply all_in_no_space, Ab|].
  constructor; [reflexivity|apply all_in_no_space, Ac].
Qed.

End AddressShape.

(** X1.  Every string accepted by [validateEmail] contains exactly one
    ['@'], contains no whitespace, and has at least five code units. *)
Theorem validateEmail_accepted_shape :
  forall s, validateEmail s = true ->
    count_occ N.eq_dec s ch_at = 1 /\
    Forall (fun c => is_space c = false) s /\
    5 <= length s.
Proof.
  intros s H. apply validateEmail_accepts in H.
  destruct H as (l & b & c & -> & Nl & Nb & Nc & Al & Ab & Ac).
  split; [|split].
  - rewrite count_occ_app. simpl. rewrite count_occ_app. simpl.
    rewrite !all_in_no_at by assumption. reflexivity.
  - apply dotted_no_space; assumption.
  - destruct l; [contradiction|]. destruct b; [contradiction|].
    destruct c; [contradiction|].
    simpl. rewrite length_app. simpl. rewrite length_app. simpl. lia.
Qed.

Lemma validateEmail_accepted_shape_witness :
  count_occ N.eq_dec (lit "a@b.com") ch_at = 1.
Proof.
  exact (proj1 (validateEmail_accepted_shape (lit "a@b.com") eq_refl)).
Defined.

(** X2.  Every string accepted by [validateEmail] is an address of the
    two-part grammar: a non-empty local part, ['@'], a non-empty domain,
    no whitespace. *)
Theorem validateEmail_implies_two_part :
  forall s, validateEmail s = true -> two_part_address s.
Proof.
  intros s H. apply validateEmail_accepts in H.
  destruct H as (l & b & c & -> & Nl & Nb & Nc & Al & Ab & Ac).
  exists l, (b ++ ch_dot :: c). split; [reflexivity|]. split; [exact Nl|].
  split; [|apply dotted_no_space; assumption].
  destruct b; discriminate.
Qed.

Lemma validateEmail_implies_two_part_witness : two_part_address (lit "a@b.com").
Proof. exact (validateEmail_implies_two_part (lit "a@b.com") eq_refl). Defined.

Section StripMore.

Lemma subseq_refl s : subseq s s.
Proof. induction s; constructor; assumption. Qed.

Lemma subseq_app_keep p a b : subseq a b -> subseq (p ++ a) (p ++ b).
Proof. intros H. induction p; simpl; [exact H|constructor; assumption]. Qed.

Lemma subseq_app_drop p a b : subseq a b -> subseq a (p ++ b).
Proof. intros H. induction p; simpl; [exact H|constructor; assumption]. Qed.

Lemma subseq_length a b : subseq a b -> length a <= length b.
Proof. induction 1; simpl; lia. Qed.

Lemma tags_removed_subseq s out : tags_removed s out -> subseq out s.
Proof.
  induction 1 as [s Hn | pre body rest out Np Nb T IH]; [apply subseq_refl|].
  apply subseq_app_keep. apply subseq_drop.
  apply subseq_app_drop. apply subseq_drop. exact IH.
Qed.

Lemma stripHtml_fixed s : ~ has_tag s -> stripHtml s = s.
Proof.
  intros Hn.
  exact (tags_removed_fun _ _ (stripHtml_removes s) _ (tags_none s Hn)).
Qed.

End StripMore.

(** X3.  [stripHtml] is idempotent: stripping an already stripped string
    changes nothing. *)
Theorem stripHtml_idempotent :
  forall s, stripHtml (stripHtml s) = stripHtml s.
Proof.
  intros s. apply stripHtml_fixed.
  exact (tags_removed_no_tag _ _ (stripHtml_removes s)).
Qed.

(** X4.  [stripHtml] returns its argument unchanged exactly when the
    argument contains no tag, that is no ['<'] followed later by a
    ['>']. *)
Theorem stripHtml_unchanged_iff_no_tag :
  forall s, stripHtml s = s <-> ~ has_tag s.
Proof.
  intros s. split.
  - intros E. rewrite <- E.
    exact (tags_removed_no_tag _ _ (stripHtml_removes s)).
  - apply stripHtml_fixed.
Qed.

Lemma stripHtml_unchanged_iff_no_tag_witness :
  ~ has_tag (lit "1 < 2").
Proof.
  exact (proj1 (stripHtml_unchanged_iff_no_tag (lit "1 < 2")) eq_refl).
Defined.

(** X5.  [stripHtml] only deletes: its result is the argument with some
    code units removed, in the original order, so it is never longer than
    the argument. *)
Theorem stripHtml_only_deletes :
  forall s, subseq (stripHtml s) s /\ length (stripHtml s) <= length s.
Proof.
  intros s.
  assert (H : subseq (stripHtml s) s)
    by exact (tags_removed_subseq _ _ (stripHtml_removes s)).
  split; [exact H|apply subseq_length, H].
Qed.

(* ===================================================================== *)
(** ** More on [sendCampaign] *)
(* ===================================================================== *)

Section CampaignMore.

Variable resend : Transport.

Lemma outcomes_along_app a :
  forall w b,
    outcomes_along resend w (a ++ b)
    = outcomes_along resend w a ++ outcomes_along resend (w ++ a) b.
Proof.
  induction a as [|[rq|ms] a IH]; intros w b; simpl.
  - rewrite app_nil_r. reflexivity.
  - rewrite IH, <- app_assoc. reflexivity.
  - rewrite IH, <- app_assoc. reflexivity.
Qed.

Lemma outcomes_along_pauses p :
  forall w, sends_of p = [] -> outcomes_along resend w p = [].
Proof.
  induction p as [|[rq|ms] p IH]; intros w H; simpl in *.
  - reflexivity.
  - discriminate.
  - apply IH, H.
Qed.

Lemma attempts_outcomes req w rs os w' :
  attempts resend req w rs os w' ->
  exists evs, w' = w ++ evs /\ os = outcomes_along resend w evs.
Proof.
  induction 1 as [w | w r rs os w' pauses P T (evs & E & O)].
  - exists []. rewrite app_nil_r. auto.
  - exists (EvSend (req r) :: pauses ++ evs). split.
    + rewrite E, <- app_assoc. reflexivity.
    + simpl. f_equal. rewrite outcomes_along_app, outcomes_along_pauses by exact P.
      simpl. rewrite O, <- app_assoc. reflexivity.
Qed.

(** [sendCampaign] in closed form. *)
Lemma sendCampaign_closed R subject content from w :
  sendCampaign resend R subject content from w
  = (Fulfilled (outcomes_along resend w
                  (campaign_events (campaign_request subject content from) R)),
     w ++ campaign_events (campaign_request subject content from) R).
Proof.
  destruct (sendCampaign_run resend subject content from R w) as (os & E & T).
  rewrite E. destruct (attempts_outcomes _ _ _ _ _ T) as (evs & Ew & ->).
  apply app_inv_head in Ew. subst evs. reflexivity.
Qed.

End CampaignMore.

Section CampaignEvents.

Variable req : jsstring -> SendRequest.

Lemma batch_count_step n : batch_count (batchSize + n) = S (batch_count n).
Proof.
  pose proof (batch_count_bounds n) as [A1 A2].
  pose proof (batch_count_bounds (batchSize + n)) as [B1 B2].
  unfold batchSize in *. lia.
Qed.

Lemma skipn_past {A} (a rest : list A) i :
  skipn (length a + i) (a ++ rest) = skipn i rest.
Proof.
  rewrite skipn_app, skipn_all2 by lia.
  replace (length a + i - length a) with i by lia. reflexivity.
Qed.

Lemma slice_past {A} (a rest : list A) i j :
  slice (a ++ rest) (length a + i) (length a + j) = slice rest i j.
Proof.
  unfold slice. rewrite skipn_past.
  replace (length a + j - (length a + i)) with (j - i) by lia. reflexivity.
Qed.

Lemma batch_events_shift a rest k :
  length a = batchSize ->
  batch_events req (a ++ rest) (S k) = batch_events req rest k.
Proof.
  intros L. unfold batch_events.
  replace (batchSize * S k) with (length a + batchSize * k)
    by (rewrite L; unfold batchSize; lia).
  rewrite <- Nat.add_assoc, slice_past, skipn_past. reflexivity.
Qed.

Lemma flat_map_seq_shift (f : nat -> list Event) n :
  forall a, flat_map f (seq (S a) n) = flat_map (fun k => f (S k)) (seq a n).
Proof.
  induction n as [|n IH]; intros a; simpl; [reflexivity|].
  rewrite IH. reflexivity.
Qed.

Lemma batch_events_first a rest :
  length a = batchSize -> rest <> [] ->
  batch_events req (a ++ rest) 0 = send_events req a ++ [EvDelay 1000].
Proof.
  intros L Ne. unfold batch_events.
  change (batchSize * 0) with 0. change (0 + batchSize) with batchSize.
  unfold slice. change (skipn 0 (a ++ rest)) with (a ++ rest).
  rewrite Nat.sub_0_r, <- L.
  rewrite firstn_app, firstn_all, Nat.sub_diag, app_nil_r.
  rewrite skipn_app, skipn_all, Nat.sub_diag.
  destruct rest; [contradiction|reflexivity].
Qed.

(** A first batch of ten followed by more recipients. *)
Lemma campaign_events_cons a rest :
  length a = batchSize -> rest <> [] ->
  campaign_events req (a ++ rest)
  = send_events req a ++ EvDelay 1000 :: campaign_events req rest.
Proof.
  intros L Ne. unfold campaign_events.
  rewrite length_app, L, batch_count_step.
  change (seq 0 (S (batch_count (length rest))))
    with (0 :: seq 1 (batch_count (length rest))).
  cbn [flat_map]. rewrite flat_map_seq_shift.
  rewrite (flat_map_ext _ (batch_events req rest))
    by (intros k; apply batch_events_shift, L).
  rewrite batch_events_first by assumption.
  rewrite <- app_assoc. reflexivity.
Qed.

(** At most ten recipients: one batch, no pause. *)
Lemma campaign_events_single a :
  length a <= batchSize -> campaign_events req a = send_events req a.
Proof.
  intros L. unfold campaign_events.
  destruct a as [|x a]; [reflexivity|].
  assert (B : batch_count (length (x :: a)) = 1).
  { pose proof (batch_count_bounds (length (x :: a))) as [B1 B2].
    simpl in *. unfold batchSize in *. lia. }
  rewrite B. change (seq 0 1) with [0]. cbn [flat_map]. rewrite app_nil_r.
  unfold batch_events.
  change (batchSize * 0) with 0. change (0 + batchSize) with batchSize.
  unfold slice. change (skipn 0 (x :: a)) with (x :: a).
  rewrite Nat.sub_0_r, firstn_all2, skipn_all2 by exact L.
  apply app_nil_r.
Qed.

Lemma campaign_events_app m :
  forall R1 R2,
    length R1 = batchSize * m -> 0 < m -> R2 <> [] ->
    campaign_events req (R1 ++ R2)
    = campaign_events req R1 ++ EvDelay 1000 :: campaign_events req R2.
Proof.
  induction m as [|m IH]; intros R1 R2 L Hm Ne; [lia|].
  rewrite <- (firstn_skipn batchSize R1) in *.
  set (a := firstn batchSize R1) in *. set (r := skipn batchSize R1) in *.
  assert (La : length a = batchSize).
  { unfold a. rewrite length_firstn. rewrite length_app in L.
    unfold a, r in L. rewrite length_firstn, length_skipn in L.
    unfold batchSize in *. lia. }
  assert (Lr : length r = batchSize * m).
  { rewrite length_app, La in L. unfold batchSize in *. lia. }
  rewrite <- app_assoc.
  destruct m as [|m'].
  - destruct r; [|simpl in Lr; unfold batchSize in Lr; lia].
    simpl app. rewrite app_nil_r.
    rewrite campaign_events_cons by assumption.
    rewrite (campaign_events_single a) by lia. reflexivity.
  - assert (Nr : r <> []).
    { intros E. rewrite E in Lr. simpl in Lr. unfold batchSize in Lr. lia. }
    assert (Nr2 : r ++ R2 <> []) by (destruct r; [contradiction|discriminate]).
    rewrite (campaign_events_cons a (r ++ R2) La Nr2).
    rewrite (campaign_events_cons a r La Nr).
    rewrite (IH r R2) by (try assumption; lia).
    rewrite <- app_assoc. reflexivity.
Qed.

Lemma sends_of_send_events rs : sends_of (send_events req rs) = map req rs.
Proof. induction rs; simpl; congruence. Qed.

Lemma sends_of_batch R k :
  sends_of (batch_events req R k)
  = map req (slice R (batchSize * k) (batchSize * k + batchSize)).
Proof.
  unfold batch_events. rewrite sends_of_app, sends_of_send_events.
  destruct (skipn (batchSize * k + batchSize) R); simpl; apply app_nil_r.
Qed.

End CampaignEvents.

Section StatelessTransport.

Variable answer : SendRequest -> Settled CreateEmailResponse.

Lemma attempts_stateless req w rs os w' :
  attempts (fun _ rq => answer rq) req w rs os w' ->
  os = map (fun r => outcome_of (answer (req r))) rs.
Proof. induction 1; simpl; congruence. Qed.

End StatelessTransport.

(** X6.  When the transport's answer depends on the request only, the
    outcomes of a campaign are the answers for the recipients' requests,
    in list order; a recipient listed twice gets the same outcome twice. *)
Theorem sendCampaign_stateless_transport :
  forall (answer : SendRequest -> Settled CreateEmailResponse)
         (R : list jsstring) (subject content : jsstring)
         (from : option jsstring) (w : Trace),
    fst (sendCampaign (fun _ rq => answer rq) R subject content from w)
    = Fulfilled
        (map (fun r => outcome_of (answer (campaign_request subject content from r)))
             R).
Proof.
  intros answer R subject content from w.
  destruct (sendCampaign_run (fun _ rq => answer rq) subject content from R w)
    as (os & E & T).
  rewrite E. simpl. f_equal. eapply attempts_stateless. exact T.
Qed.

(** X7.  A campaign to at most ten recipients is a single batch: the
    trace grows by one send per recipient and contains no pause. *)
Theorem sendCampaign_single_batch :
  forall (resend : Transport) (R : list jsstring)
         (subject content : jsstring) (from : option jsstring) (w : Trace),
    length R <= batchSize ->
    snd (sendCampaign resend R subject content from w)
    = w ++ send_events (campaign_request subject content from) R.
Proof.
  intros resend R subject content from w L.
  rewrite sendCampaign_closed. simpl.
  rewrite campaign_events_single by exact L. reflexivity.
Qed.

Lemma sendCampaign_single_batch_witness :
  snd (sendCampaign always_ok (repeat (lit "a@x.com") 10)
                    (lit "Hi") (lit "<p>hi</p>") None [])
  = send_events (campaign_request (lit "Hi") (lit "<p>hi</p>") None)
                (repeat (lit "a@x.com") 10).
Proof.
  apply (sendCampaign_single_batch always_ok (repeat (lit "a@x.com") 10)
           (lit "Hi") (lit "<p>hi</p>") None []).
  unfold batchSize. simpl. lia.
Defined.

(** X8.  Every batch of a campaign holds between one and ten sends, and
    every batch but the last holds exactly ten: between two pauses the
    transport is called at most ten times. *)
Theorem sendCampaign_batch_sizes :
  forall (resend : Transport) (R : list jsstring)
         (subject content : jsstring) (from : option jsstring) (w : Trace),
    let req := campaign_request subject content from in
    snd (sendCampaign resend R subject content from w)
    = w ++ flat_map (batch_events req R) (seq 0 (batch_count (length R))) /\
    forall k, k < batch_count (length R) ->
      1 <= length (sends_of (batch_events req R k)) <= batchSize /\
      (S k < batch_count (length R) ->
       length (sends_of (batch_events req R k)) = batchSize).
Proof.
  intros resend R subject content from w req.
  split; [rewrite sendCampaign_closed; reflexivity|].
  intros k Hk. rewrite sends_of_batch, length_map. unfold slice.
  rewrite length_firstn, length_skipn.
  pose proof (batch_count_bounds (length R)) as [B1 B2].
  unfold batchSize in *. split; lia.
Qed.

Lemma sendCampaign_batch_sizes_witness :
  length (sends_of (batch_events (campaign_request (lit "Hi") (lit "<p>hi</p>") None)
                                 (repeat (lit "a@x.com") 25) 2)) <= batchSize.
Proof.
  refine (proj2 (proj1 (proj2 (sendCampaign_batch_sizes always_ok
            (repeat (lit "a@x.com") 25) (lit "Hi") (lit "<p>hi</p>") None [])
            2 _))).
  vm_compute. lia.
Defined.

(** X9.  Splitting at a batch boundary: a campaign to [R1 ++ R2], where
    [R1] is a positive multiple of ten recipients and [R2] is not empty,
    behaves as the campaign to [R1], the 1000 ms pause, then the campaign
    to [R2], with the outcome lists appended. *)
Theorem sendCampaign_split_at_batch :
  forall (resend : Transport) (R1 R2 : list jsstring)
         (subject content : jsstring) (from : option jsstring) (w : Trace)
         (m : nat),
    length R1 = batchSize * m -> 0 < m -> R2 <> [] ->
    sendCampaign resend (R1 ++ R2) subject content from w
    = bind (sendCampaign resend R1 subject content from) (fun o1 =>
      bind (delay 1000) (fun _ =>
      bind (sendCampaign resend R2 subject content from) (fun o2 =>
      ret (o1 ++ o2)))) w.
Proof.
  intros resend R1 R2 subject content from w m L Hm Ne.
  unfold bind, delay, ret. rewrite !sendCampaign_closed.
  rewrite (campaign_events_app _ m) by assumption.
  rewrite outcomes_along_app. simpl outcomes_along.
  rewrite <- !app_assoc. reflexivity.
Qed.

Lemma sendCampaign_split_at_batch_witness :
  sendCampaign always_ok (repeat (lit "a@x.com") 10 ++ [lit "b@x.com"])
               (lit "Hi") (lit "<p>hi</p>") None []
  = bind (sendCampaign always_ok (repeat (lit "a@x.com") 10)
                       (lit "Hi") (lit "<p>hi</p>") None) (fun o1 =>
    bind (delay 1000) (fun _ =>
    bind (sendCampaign always_ok [lit "b@x.com"]
                       (lit "Hi") (lit "<p>hi</p>") None) (fun o2 =>
    ret (o1 ++ o2)))) [].
Proof.
  apply (sendCampaign_split_at_batch always_ok (repeat (lit "a@x.com") 10)
           [lit "b@x.com"] (lit "Hi") (lit "<p>hi</p>") None [] 1).
  - reflexivity.
  - lia.
  - discriminate.
Defined.

(** X10.  Every message of a campaign is addressed to exactly one
    recipient of the list, and all messages carry the same sender (the
    given one, or the default when it is missing or empty), the subject,
    the content as HTML and the stripped content, free of tags, as text. *)
Theorem sendCampaign_messages_uniform :
  forall (resend : Transport) (R : list jsstring)
         (subject content : jsstring) (from : option jsstring) (w : Trace),
    sends_of (snd (sendCampaign resend R subject content from w))
    = sends_of w
      ++ map (fun r => {| rq_from := js_or from defaultFrom;
                          rq_to := [r];
                          rq_subject := subject;
                          rq_html := content;
                          rq_text := stripHtml content |}) R /\
    ~ has_tag (stripHtml content).
Proof.
  intros resend R subject content from w. split.
  - destruct (sendCampaign_run resend subject content from R w) as (os & E & T).
    rewrite E. simpl.
    destruct (attempts_extends _ _ _ _ _ _ _ _ T) as (t & Et & St).
    rewrite Et, sends_of_app, St. reflexivity.
  - exact (tags_removed_no_tag _ _ (stripHtml_removes content)).
Qed.

Lemma sendCampaign_messages_uniform_witness :
  ~ has_tag (stripHtml (lit "<p>hi</p>")).
Proof.
  exact (proj2 (sendCampaign_messages_uniform always_ok [lit "a@x.com"]
                  (lit "Hi") (lit "<p>hi</p>") None [])).
Defined.

(* ===================================================================== *)
(** ** [sendTemplate] *)
(* ===================================================================== *)

(** X11.  [sendTemplate] never rejects and its outcome is a success without
    error text or a failure without message identifier.  When the template
    data cannot be serialised the outcome is the failure describing the
    exception and the transport is not called; otherwise the transport is
    called exactly once, with the default sender and subject standing in
    for missing or empty ones. *)
Theorem sendTemplate_never_rejects :
  forall (Data : Type) (stringify : Data -> Settled jsstring)
         (resend : TemplateTransport) (to : Recipients)
         (templateId : jsstring) (data : Data)
         (subject from : option jsstring) (w : TemplateTrace),
  exists o,
    fst (sendTemplate stringify resend to templateId data subject from w)
    = Fulfilled o /\
    well_formed o /\
    (forall e, stringify data = Rejected e ->
       o = failure (describe e) /\
       snd (sendTemplate stringify resend to templateId data subject from w) = w) /\
    (forall json, stringify data = Fulfilled json ->
       snd (sendTemplate stringify resend to templateId data subject from w)
       = w ++ [{| tq_from := js_or from defaultFrom;
                  tq_to := match to with Several l => l | Single a => [a] end;
                  tq_subject := js_or subject defaultSubject;
                  tq_react := lit "<div>Template " ++ templateId
                              ++ lit " with data: " ++ json ++ lit "</div>" |}]).
Proof.
  intros Data stringify resend to templateId data subject from w.
  unfold sendTemplate, etry, ebind, getTemplateComponent, template_send, eret.
  destruct (stringify data) as [json|e].
  - match goal with |- context [resend w ?rq] =>
      destruct (resend w rq) as [reply|e2] eqn:R end; simpl.
    + exists (response_of reply). split; [reflexivity|].
      split; [exact (outcome_of_well_formed (Fulfilled reply))|].
      split; [intros e H; discriminate|].
      intros j H. inversion H; subst. reflexivity.
    + exists (failure (describe e2)). split; [reflexivity|].
      split; [exact (outcome_of_well_formed (Rejected e2))|].
      split; [intros e H; discriminate|].
      intros j H. inversion H; subst. reflexivity.
  - simpl. exists (failure (describe e)). split; [reflexivity|].
    split; [exact (outcome_of_well_formed (Rejected e))|].
    split; [|intros j H; discriminate].
    intros e' H. inversion H; subst. auto.
Qed.

Lemma sendTemplate_never_rejects_witness :
  snd (sendTemplate (fun _ : unit => Rejected (ErrorObject (lit "cyclic")))
                    (fun _ _ => Fulfilled {| reply_data := None;
                                             reply_error := None |})
                    (Single (lit "a@x.com")) (lit "welcome") tt None None [])
  = [].
Proof.
  destruct (sendTemplate_never_rejects unit
              (fun _ : unit => Rejected (ErrorObject (lit "cyclic")))
              (fun _ _ => Fulfilled {| reply_data := None; reply_error := None |})
              (Single (lit "a@x.com")) (lit "welcome") tt None None [])
    as (o & _ & _ & H & _).
  exact (proj2 (H (ErrorObject (lit "cyclic")) eq_refl)).
Defined.

(* ===================================================================== *)
(** ** Tags, status and name of a lead *)
(* ===================================================================== *)

Section LeadFacts.

Lemma str_eqb_true a b : str_eqb a b = true <-> a = b.
Proof.
  unfold str_eqb. destruct (list_eq_dec N.eq_dec a b); split;
    intros; try assumption; try reflexivity; try discriminate; contradiction.
Qed.

Lemma includes_In l x : includes l x = true <-> In x l.
Proof.
  unfold includes. rewrite existsb_exists. split.
  - intros (y & I & E). apply str_eqb_true in E. subst. exact I.
  - intros I. exists x. split; [exact I|]. apply str_eqb_true. reflexivity.
Qed.

Lemma includes_not_In l x : includes l x = false <-> ~ In x l.
Proof.
  rewrite <- includes_In. destruct (includes l x); split; intros H;
    try discriminate; try reflexivity; try (intros C; discriminate).
  exfalso. apply H. reflexivity.
Qed.

Lemma set_add_In s x t : In t (set_add s x) <-> In t s \/ t = x.
Proof.
  unfold set_add. destruct (includes s x) eqn:E.
  - apply includes_In in E. split; [auto|]. intros [H| ->]; assumption.
  - rewrite in_app_iff. simpl. split; intros [H|H]; auto.
    + destruct H as [H|[]]; auto.
Qed.

Lemma set_add_NoDup s x : NoDup s -> NoDup (set_add s x).
Proof.
  intros N. unfold set_add. destruct (includes s x) eqn:E; [exact N|].
  apply includes_not_In in E. apply NoDup_app; [exact N|repeat constructor; intros []|].
  intros a Ia [<-|[]]. exact (E Ia).
Qed.

Lemma fold_set_add_In xs :
  forall s t, In t (fold_left set_add xs s) <-> In t s \/ In t xs.
Proof.
  induction xs as [|x xs IH]; intros s t; simpl.
  - tauto.
  - rewrite IH, set_add_In. split; intros H; intuition (subst; auto).
Qed.

Lemma fold_set_add_NoDup xs :
  forall s, NoDup s -> NoDup (fold_left set_add xs s).
Proof.
  induction xs as [|x xs IH]; intros s N; simpl; [exact N|].
  apply IH, set_add_NoDup, N.
Qed.

Lemma fold_set_add_prefix xs :
  forall s, exists extra, fold_left set_add xs s = s ++ extra.
Proof.
  induction xs as [|x xs IH]; intros s; simpl.
  - exists []. symmetry. apply app_nil_r.
  - destruct (IH (set_add s x)) as (extra & E). rewrite E.
    unfold set_add. destruct (includes s x).
    + exists extra. reflexivity.
    + exists ([x] ++ extra). rewrite app_assoc. reflexivity.
Qed.


Lemma fold_set_add_fresh xs :
  forall s, NoDup (s ++ xs) -> fold_left set_add xs s = s ++ xs.
Proof.
  induction xs as [|x xs IH]; intros s N; simpl.
  - symmetry. apply app_nil_r.
  - assert (E : set_add s x = s ++ [x]).
    { unfold set_add. destruct (includes s x) eqn:I; [|reflexivity].
      apply includes_In in I. apply NoDup_remove_2 in N.
      exfalso. apply N. apply in_or_app. left. exact I. }
    rewrite E, IH; rewrite <- app_assoc; [reflexivity|exact N].
Qed.

Lemma new_Set_NoDup_id l : NoDup l -> new_Set l = l.
Proof.
  intros N. unfold new_Set. rewrite fold_set_add_fresh; [reflexivity|exact N].
Qed.

Lemma new_Set_NoDup l : NoDup (new_Set l).
Proof. apply fold_set_add_NoDup. constructor. Qed.

Lemma new_Set_In l t : In t (new_Set l) <-> In t l.
Proof. unfold new_Set. rewrite fold_set_add_In. simpl. tauto. Qed.

Lemma new_Set_app a b :
  new_Set (a ++ b) = fold_left set_add b (new_Set a).
Proof. apply fold_left_app. Qed.



Lemma new_Set_extends old ts :
  NoDup old ->
  exists extra,
    new_Set (old ++ ts) = old ++ extra /\
    forall t, In t extra <-> In t ts /\ ~ In t old.
Proof.
  intros N. rewrite new_Set_app, (new_Set_NoDup_id _ N).
  destruct (fold_set_add_prefix ts old) as (extra & E).
  exists extra. split; [exact E|]. intros t.
  pose proof (fold_set_add_In ts old t) as M.
  pose proof (fold_set_add_NoDup ts old N) as N2.
  rewrite E in M, N2. rewrite in_app_iff in M. split.
  - intros I. assert (Nt : ~ In t old).
    { intros Io. apply NoDup_app_remove_l in N2 as N3.
      clear M E. induction old as [|y l IH]; [destruct Io|].
      simpl in N2. inversion N2; subst. inversion N; subst.
      destruct Io as [->|Io].
      - apply H1. apply in_or_app. right. exact I.
      - exact (IH H4 H2 Io). }
    split; [|exact Nt].
    destruct (proj1 M (or_intror I)); [contradiction|assumption].
  - intros [It Nt].
    destruct (proj2 M (or_intror It)); [contradiction|assumption].
Qed.

End LeadFacts.

(** X12.  After [addTags] the tags of the lead contain no duplicate, and
    a tag is among them exactly when it was a tag before or is one of the
    added tags. *)
Theorem addTags_is_union :
  forall (d : LeadDoc) (ts : list jsstring),
    NoDup (tags (addTags ts d)) /\
    forall t, In t (tags (addTags ts d)) <-> In t (tags d) \/ In t ts.
Proof.
  intros d ts. simpl. split; [apply new_Set_NoDup|].
  intros t. rewrite new_Set_In. apply in_app_iff.
Qed.

Lemma addTags_is_union_witness :
  In (lit "vip")
     (tags (addTags [lit "vip"]
              {| email := lit "a@b.com"; tags := [lit "new"]; status := NEW;
                 unsubscribedAt := None; bouncedAt := None |})).
Proof.
  apply (proj2 (addTags_is_union
                  {| email := lit "a@b.com"; tags := [lit "new"]; status := NEW;
                     unsubscribedAt := None; bouncedAt := None |}
                  [lit "vip"])).
  right. left. reflexivity.
Defined.

(** X13.  When the tags of the lead are free of duplicates, [addTags]
    keeps them in place and appends the added tags that are new. *)
Theorem addTags_keeps_existing :
  forall (d : LeadDoc) (ts : list jsstring),
    NoDup (tags d) ->
    exists extra,
      tags (addTags ts d) = tags d ++ extra /\
      forall t, In t extra <-> In t ts /\ ~ In t (tags d).
Proof.
  intros d ts N. simpl. apply new_Set_extends, N.
Qed.

Lemma addTags_keeps_existing_witness :
  exists extra,
    tags (addTags [lit "vip"; lit "new"]
            {| email := lit "a@b.com";
               tags := [lit "new"]; status := NEW;
               unsubscribedAt := None; bouncedAt := None |})
    = [lit "new"] ++ extra.
Proof.
  destruct (addTags_keeps_existing
              {| email := lit "a@b.com";
                 tags := [lit "new"]; status := NEW;
                 unsubscribedAt := None; bouncedAt := None |}
              [lit "vip"; lit "new"]) as (extra & E & _).
  - repeat constructor. intros [].
  - exists extra. exact E.
Defined.




(** X16.  The schema's rule for tags (every tag at most 50 code units
    long) is kept by [addTags] when the added tags obey it, and by
    [removeTags] whatever is removed. *)
Theorem tag_methods_keep_validator :
  forall (d : LeadDoc) (ts : list jsstring),
    tags_validator (tags d) = true ->
    (tags_validator ts = true -> tags_validator (tags (addTags ts d)) = true) /\
    tags_validator (tags (removeTags ts d)) = true.
Proof.
  intros d ts V. unfold tags_validator in *. rewrite forallb_forall in V.
  split.
  - intros Vt. rewrite forallb_forall in *. intros t I. simpl in I.
    apply new_Set_In, in_app_or in I. destruct I; auto.
  - apply forallb_forall. intros t I. simpl in I. apply filter_In in I.
    apply V. tauto.
Qed.

Lemma tag_methods_keep_validator_witness :
  tags_validator
    (tags (removeTags [lit "vip"]
             {| email := lit "a@b.com";
                tags := [lit "new"; lit "vip"]; status := NEW;
                unsubscribedAt := None; bouncedAt := None |})) = true.
Proof.
  exact (proj2 (tag_methods_keep_validator
                  {| email := lit "a@b.com";
                     tags := [lit "new"; lit "vip"]; status := NEW;
                     unsubscribedAt := None; bouncedAt := None |}
                  [lit "vip"] eq_refl)).
Defined.

Section StatusFacts.

Lemma last_cons_default (a : LeadStatus) l d :
  last (a :: l) d = last l a.
Proof.
  revert a d. induction l as [|b l IH]; intros a d; [reflexivity|].
  change (last (a :: b :: l) d) with (last (b :: l) d).
  rewrite !IH. reflexivity.
Qed.

End StatusFacts.

(** X17.  After any series of [updateStatus] calls the status of the lead
    is the one of the last call; [unsubscribedAt] and [bouncedAt] are
    never cleared, also not when the lead leaves the status, and change
    only in a series that sets the status they belong to; tags and email
    are untouched. *)
Theorem updateStatus_never_clears_dates :
  forall (calls : list (Date * LeadStatus)) (d : LeadDoc),
    status (updateStatuses calls d) = last (map snd calls) (status d) /\
    tags (updateStatuses calls d) = tags d /\
    email (updateStatuses calls d) = email d /\
    (unsubscribedAt d <> None ->
     unsubscribedAt (updateStatuses calls d) <> None) /\
    (bouncedAt d <> None -> bouncedAt (updateStatuses calls d) <> None) /\
    (~ In UNSUBSCRIBED (map snd calls) ->
     unsubscribedAt (updateStatuses calls d) = unsubscribedAt d) /\
    (~ In BOUNCED (map snd calls) ->
     bouncedAt (updateStatuses calls d) = bouncedAt d).
Proof.
  intros calls. induction calls as [|[now st] calls IH]; intros d.
  - simpl. tauto.
  - change (updateStatuses ((now, st) :: calls) d)
      with (updateStatuses calls (updateStatus now st d)).
    destruct (IH (updateStatus now st d)) as (S1 & T1 & E1 & U1 & B1 & U2 & B2).
    rewrite S1, T1, E1. simpl map. rewrite last_cons_default.
    split; [reflexivity|]. split; [reflexivity|]. split; [reflexivity|].
    split; [|split; [|split]].
    + intros H. apply U1. simpl. destruct st; try exact H; discriminate.
    + intros H. apply B1. simpl. destruct st; try exact H; discriminate.
    + intros H. rewrite U2 by (intros I; apply H; right; exact I).
      simpl. destruct st; try reflexivity. exfalso. apply H. left. reflexivity.
    + intros H. rewrite B2 by (intros I; apply H; right; exact I).
      simpl. destruct st; try reflexivity. exfalso. apply H. left. reflexivity.
Qed.

Lemma updateStatus_never_clears_dates_witness :
  unsubscribedAt
    (updateStatuses [(5, UNSUBSCRIBED); (9, NEW)]
       {| email := lit "a@b.com"; tags := []; status := NEW;
          unsubscribedAt := Some 1; bouncedAt := None |}) <> None.
Proof.
  apply (proj1 (proj2 (proj2 (proj2 (updateStatus_never_clears_dates
           [(5, UNSUBSCRIBED); (9, NEW)]
           {| email := lit "a@b.com"; tags := []; status := NEW;
              unsubscribedAt := Some 1; bouncedAt := None |}))))).
  simpl. discriminate.
Defined.

(* ===================================================================== *)
(** ** The database connection *)
(* ===================================================================== *)

Section DbFacts.

Variable mongoose : Mongoose.

(** Case analysis on the flag, the connection string and the answers of
    [mongoose]. *)
Ltac db_cases :=
  unfold reconnect, connect, disconnect, healthCheck, connection_lost,
    etry, ebind, eret, ethrow, mongoose_call, set_isConnected,
    setupEventListeners;
  simpl;
  repeat match goal with
         | |- context [if ?b then _ else _] => destruct b eqn:?; simpl
         | |- context [match ?l with [] => _ | _ :: _ => _ end] =>
             destruct l eqn:?; simpl
         | |- context [mongoose ?a ?b] => destruct (mongoose a b) eqn:?; simpl
         end.

Lemma connects_ok_snoc l c :
  connects_ok (l ++ [c])
  = connects_ok l
    + match call_op c with
      | MConnect _ => if call_ok c then 1 else 0
      | _ => 0
      end.
Proof.
  unfold connects_ok. rewrite filter_app, length_app. f_equal.
  simpl. destruct (call_op c); [destruct (call_ok c)| |]; reflexivity.
Qed.

Lemma connect_first_snoc l c :
  forall seen,
    connect_first seen (l ++ [c])
    = connect_first seen l
      && match call_op c with
         | MConnect _ => true
         | _ => seen || (0 <? connects_ok l)
         end.
Proof.
  induction l as [|c0 l IH]; intros seen.
  - simpl. destruct (call_op c); simpl;
      rewrite ?orb_false_r, ?andb_true_r; reflexivity.
  - simpl. unfold connects_ok in *. simpl.
    destruct (call_op c0) eqn:E0; rewrite IH.
    + destruct (call_ok c0); simpl.
      * destruct (call_op c); rewrite ?orb_true_r; reflexivity.
      * rewrite orb_false_r. reflexivity.
    + rewrite andb_assoc. reflexivity.
    + rewrite andb_assoc. reflexivity.
Qed.

Lemma db_invariant_step uri s a :
  db_invariant uri s -> db_invariant uri (step mongoose s a).
Proof.
  intros (C & L & F & O & U). destruct s as [ic cs ls cl]. simpl in *. subst cs.
  assert (P : forall ok, Forall (fun c => forall u, call_op c = MConnect u -> u = uri)
                (cl ++ [{| call_op := MConnect uri; call_ok := ok |}])).
  { intros ok. apply Forall_app. split; [exact U|]. constructor; [|constructor].
    simpl. intros u E. inversion E. reflexivity. }
  assert (Q : forall o ok, (forall u, o <> MConnect u) ->
                Forall (fun c => forall u, call_op c = MConnect u -> u = uri)
                  (cl ++ [{| call_op := o; call_ok := ok |}])).
  { intros o ok H. apply Forall_app. split; [exact U|]. constructor; [|constructor].
    simpl. intros u E. exfalso. exact (H u E). }
  destruct ic; [specialize (F eq_refl)|];
    destruct a; unfold step, db_invariant; db_cases;
    rewrite ?connects_ok_snoc, ?connect_first_snoc, ?O; simpl;
    repeat split; auto; try lia; try discriminate;
    try (rewrite ?andb_true_r; apply Nat.ltb_lt; lia);
    try (apply Q; intros u; discriminate);
    try (apply Forall_app; (split; [apply Q; intros u; discriminate|]);
         constructor; [|constructor]; simpl; intros u E; inversion E;
         reflexivity).
Qed.

Lemma db_invariant_run uri actions :
  forall s, db_invariant uri s -> db_invariant uri (run mongoose actions s).
Proof.
  induction actions as [|a actions IH]; intros s I; [exact I|].
  simpl. apply IH, db_invariant_step, I.
Qed.

Lemma db_invariant_new env : db_invariant (js_or env []) (new_instance env).
Proof. repeat split; simpl; auto; discriminate. Qed.

Lemma no_uri_step s a :
  connectionString s = [] -> isConnected s = false -> calls s = [] ->
  connectionString (step mongoose s a) = [] /\
  isConnected (step mongoose s a) = false /\
  calls (step mongoose s a) = [].
Proof.
  destruct s as [ic cs ls cl]. simpl. intros -> -> ->.
  destruct a; unfold step; db_cases; auto; discriminate.
Qed.

End DbFacts.

(** X18.  After [connect] the instance is flagged connected exactly when
    the call fulfilled.  An instance already flagged connected makes no
    call; an instance without connection string rejects with
    ['MONGODB_URI is required'] and makes no call. *)
Theorem connect_flag_iff_fulfilled :
  forall (mongoose : Mongoose) (s : DbState),
    (isConnected (snd (connect mongoose s)) = true
     <-> fst (connect mongoose s) = Fulfilled tt) /\
    (isConnected s = true -> connect mongoose s = (Fulfilled tt, s)) /\
    (isConnected s = false -> connectionString s = [] ->
     connect mongoose s
     = (Rejected (ErrorObject (lit "MONGODB_URI is required")), s)).
Proof.
  intros mongoose s. destruct s as [ic cs ls cl].
  destruct ic; split; try split;
    unfold connect, etry, ebind, eret, ethrow, mongoose_call, set_isConnected,
      setupEventListeners; simpl;
    try (destruct cs; simpl);
    try match goal with
        | |- context [mongoose ?a ?b] => destruct (mongoose a b) as [[]|]; simpl
        end;
    try split; try intros; subst; simpl; try reflexivity; try discriminate.
Qed.

Lemma connect_flag_iff_fulfilled_witness :
  connect (fun _ _ => Fulfilled tt) (new_instance None)
  = (Rejected (ErrorObject (lit "MONGODB_URI is required")), new_instance None).
Proof.
  exact (proj2 (proj2 (connect_flag_iff_fulfilled (fun _ _ => Fulfilled tt)
                         (new_instance None))) eq_refl eq_refl).
Defined.



(** X20.  [healthCheck] never rejects; afterwards the flag of the instance
    equals the returned boolean, and the result is [true] exactly when the
    instance was flagged connected and the ping fulfilled. *)
Theorem healthCheck_sets_flag :
  forall (mongoose : Mongoose) (s : DbState),
  exists b,
    fst (healthCheck mongoose s) = Fulfilled b /\
    isConnected (snd (healthCheck mongoose s)) = b /\
    (b = true <->
     isConnected s = true /\ mongoose (calls s) MPing = Fulfilled tt).
Proof.
  intros mongoose s. destruct s as [ic cs ls cl].
  unfold healthCheck, etry, ebind, eret, mongoose_call, set_isConnected.
  simpl. destruct ic; simpl.
  - destruct (mongoose cl MPing) as [[]|e]; simpl.
    + exists true. repeat split; reflexivity.
    + exists false. repeat split; try reflexivity; try discriminate.
      intros [_ H]. discriminate.
  - exists false. repeat split; try reflexivity; try discriminate.
    intros [H _]. discriminate.
Qed.

Lemma healthCheck_sets_flag_witness :
  exists b,
    fst (healthCheck (fun _ _ => Fulfilled tt) (new_instance None)) = Fulfilled b /\
    b = false.
Proof.
  destruct (healthCheck_sets_flag (fun _ _ => Fulfilled tt) (new_instance None))
    as (b & E & F & _).
  exists b. split; [exact E|]. rewrite <- F. reflexivity.
Defined.

(** X21.  When [reconnect] fulfils the instance is flagged connected.  When
    the instance is flagged connected and [mongoose.disconnect] fails,
    [reconnect] rejects with that error without trying to connect, and the
    instance stays flagged connected. *)
Theorem reconnect_stops_at_failed_disconnect :
  forall (mongoose : Mongoose) (s : DbState),
    (fst (reconnect mongoose s) = Fulfilled tt ->
     isConnected (snd (reconnect mongoose s)) = true) /\
    (forall e,
        isConnected s = true ->
        mongoose (calls s) MDisconnect = Rejected e ->
        reconnect mongoose s
        = (Rejected e,
           {| isConnected := true; connectionString := connectionString s;
              listeners := listeners s;
              calls := calls s ++ [{| call_op := MDisconnect;
                                      call_ok := false |}] |})).
Proof.
  intros mongoose s. destruct s as [ic cs ls cl]. split.
  - unfold reconnect, connect, disconnect, etry, ebind, eret, ethrow,
      mongoose_call, set_isConnected, setupEventListeners. simpl.
    destruct ic; simpl.
    + destruct (mongoose cl MDisconnect) as [[]|e]; simpl; [|discriminate].
      destruct cs; simpl; [discriminate|].
      match goal with
      | |- context [mongoose ?a ?b] => destruct (mongoose a b) as [[]|]; simpl
      end; [reflexivity|discriminate].
    + destruct cs; simpl; [discriminate|].
      match goal with
      | |- context [mongoose ?a ?b] => destruct (mongoose a b) as [[]|]; simpl
      end; [reflexivity|discriminate].
  - simpl. intros e -> H.
    unfold reconnect, disconnect, etry, ebind, ethrow, mongoose_call. simpl.
    rewrite H. reflexivity.
Qed.

Lemma reconnect_stops_at_failed_disconnect_witness :
  isConnected
    (snd (reconnect (fun _ _ => Rejected OtherValue)
            {| isConnected := true; connectionString := lit "mongodb://h/db";
               listeners := 1;
               calls := [{| call_op := MConnect (lit "mongodb://h/db");
                            call_ok := true |}] |})) = true.
Proof.
  rewrite (proj2 (reconnect_stops_at_failed_disconnect
                    (fun _ _ => Rejected OtherValue)
                    {| isConnected := true;
                       connectionString := lit "mongodb://h/db";
                       listeners := 1;
                       calls := [{| call_op := MConnect (lit "mongodb://h/db");
                                    call_ok := true |}] |})
                 OtherValue eq_refl eq_refl).
  reflexivity.
Defined.

(** X22.  Through any series of calls and connection losses on a new
    instance, the event listeners have been registered once for each
    successful [mongoose.connect], never removed, and an instance flagged
    connected has them registered at least once. *)
Theorem listeners_count_successful_connects :
  forall (mongoose : Mongoose) (env : option jsstring) (actions : list Action),
    let s := run mongoose actions (new_instance env) in
    listeners s = connects_ok (calls s) /\
    (isConnected s = true -> 1 <= listeners s).
Proof.
  intros mongoose env actions s.
  destruct (db_invariant_run mongoose (js_or env []) actions _
              (db_invariant_new env)) as (_ & L & F & _).
  fold s in L, F. split; [exact L|]. rewrite L. exact F.
Qed.

Lemma listeners_count_successful_connects_witness :
  listeners (run (fun _ _ => Fulfilled tt)
                 [DoConnect; DoDisconnect; DoConnect; DoReconnect]
                 (new_instance (Some (lit "mongodb://h/db")))) = 3.
Proof.
  rewrite (proj1 (listeners_count_successful_connects (fun _ _ => Fulfilled tt)
                    (Some (lit "mongodb://h/db"))
                    [DoConnect; DoDisconnect; DoConnect; DoReconnect])).
  reflexivity.
Defined.

(** X23.  Through any series of calls and connection losses on a new
    instance, [mongoose.disconnect] and the ping are only ever called
    after a successful [mongoose.connect], and [mongoose.connect] is only
    ever called with the connection string of the environment. *)
Theorem mongoose_calls_in_order :
  forall (mongoose : Mongoose) (env : option jsstring) (actions : list Action),
    let s := run mongoose actions (new_instance env) in
    connect_first false (calls s) = true /\
    connectionString s = js_or env [] /\
    Forall (fun c => forall u, call_op c = MConnect u -> u = js_or env [])
           (calls s).
Proof.
  intros mongoose env actions s.
  destruct (db_invariant_run mongoose (js_or env []) actions _
              (db_invariant_new env)) as (C & _ & _ & O & U).
  auto.
Qed.

Lemma mongoose_calls_in_order_witness :
  connect_first false
    (calls (run (fun _ _ => Fulfilled tt) [DoHealthCheck; DoConnect; DoHealthCheck]
                (new_instance (Some (lit "mongodb://h/db"))))) = true.
Proof.
  exact (proj1 (mongoose_calls_in_order (fun _ _ => Fulfilled tt)
                  (Some (lit "mongodb://h/db"))
                  [DoHealthCheck; DoConnect; DoHealthCheck])).
Defined.

(** X24.  A new instance without [MONGODB_URI], or with an empty one,
    never calls [mongoose] and is never flagged connected, whatever series
    of calls and connection losses it goes through. *)
Theorem no_uri_no_calls :
  forall (mongoose : Mongoose) (env : option jsstring) (actions : list Action),
    js_or env [] = [] ->
    calls (run mongoose actions (new_instance env)) = [] /\
    isConnected (run mongoose actions (new_instance env)) = false.
Proof.
  intros mongoose env actions H.
  assert (G : forall s, connectionString s = [] -> isConnected s = false ->
                        calls s = [] ->
                        calls (run mongoose actions s) = [] /\
                        isConnected (run mongoose actions s) = false).
  { induction actions as [|a actions IH]; intros s C I K; [auto|].
    simpl. destruct (no_uri_step mongoose s a C I K) as (C' & I' & K').
    apply IH; assumption. }
  apply G; [exact H|reflexivity|reflexivity].
Qed.

Lemma no_uri_no_calls_witness :
  calls (run (fun _ _ => Fulfilled tt) [DoConnect; DoHealthCheck; DoReconnect]
             (new_instance (Some (lit "")))) = [].
Proof.
  exact (proj1 (no_uri_no_calls (fun _ _ => Fulfilled tt) (Some (lit ""))
                  [DoConnect; DoHealthCheck; DoReconnect] eq_refl)).
Defined.

(** X25.  After a [healthCheck] that returned [false], [disconnect] makes
    no call on [mongoose] and leaves the instance as it is: a connection
    whose ping failed is not closed by it. *)
Theorem disconnect_after_failed_healthCheck :
  forall (mongoose : Mongoose) (s : DbState),
    fst (healthCheck mongoose s) = Fulfilled false ->
    disconnect mongoose (snd (healthCheck mongoose s))
    = (Fulfilled tt, snd (healthCheck mongoose s)).
Proof.
  intros mongoose s. destruct s as [ic cs ls cl].
  unfold healthCheck, etry, ebind, eret, mongoose_call, set_isConnected.
  simpl. destruct ic; simpl.
  - destruct (mongoose cl MPing) as [[]|e]; simpl; [discriminate|].
    intros _. reflexivity.
  - intros _. reflexivity.
Qed.

Lemma disconnect_after_failed_healthCheck_witness :
  let s := {| isConnected := true; connectionString := lit "mongodb://h/db";
              listeners := 1;
              calls := [{| call_op := MConnect (lit "mongodb://h/db");
                           call_ok := true |}] |} in
  calls (snd (disconnect (fun _ _ => Rejected OtherValue)
                (snd (healthCheck (fun _ _ => Rejected OtherValue) s))))
  = calls s ++ [{| call_op := MPing; call_ok := false |}].
Proof.
  intros s.
  rewrite (disconnect_after_failed_healthCheck (fun _ _ => Rejected OtherValue)
             s eq_refl).
  reflexivity.
Defined.
